(** * Git File Rename: a model of the rename-and-propagate engine

    This development embeds [file-rename.py] (class [GitFileRename]) and
    states properties of its pattern matcher, name transformer, content
    substitutor, copy engine, fix engine and run summary.

    Conventions of the embedding:
    - text (file names, file contents, configuration strings) is a [string]
      of 8-bit characters; case folding and stripping are the ASCII ones
      and a file is read as the bytes it holds, which is what the code does
      on ASCII text without carriage returns: the statements that depend on
      reading, folding or stripping are stated for such text;
    - a [Path] is the list of its parts, relative to the directory the tool
      is started in; a part is a single name (no separator inside);
    - the file system is a finite map from paths to nodes; code that reads
      or writes files threads it through a state-and-exception monad;
    - the [file] utility and the [git] binary are parameters of the model;
      console and log output are not modelled. *)

From Stdlib Require Import ZArith Ascii.
From stdpp Require Import base gmap list strings sorting.

Local Open Scope Z_scope.

(** ** Python [str] operations *)

Module Str.

(** [c.lower()] and [s.lower()] on ASCII text.  Beyond ASCII Python folds
    by the Unicode tables, which the model does not hold. *)
Definition lower_char (c : ascii) : ascii :=
  let n := nat_of_ascii c in
  if (65 <=? n)%nat && (n <=? 90)%nat then ascii_of_nat (n + 32) else c.

Fixpoint lower (s : string) : string :=
  match s with
  | "" => ""
  | String c s' => String (lower_char c) (lower s')
  end.

(** Character comparison: exact, and ignoring case ([re.IGNORECASE]). *)
Definition eq_case : ascii → ascii → bool := Ascii.eqb.
Definition eq_nocase (a b : ascii) : bool :=
  Ascii.eqb (lower_char a) (lower_char b).

(** [starts eqc p s]: [p] matches at the beginning of [s]. *)
Fixpoint starts (eqc : ascii → ascii → bool) (p s : string) : bool :=
  match p, s with
  | "", _ => true
  | String _ _, "" => false
  | String a p', String b s' => eqc a b && starts eqc p' s'
  end.

(** [find eqc p s]: [p] matches somewhere in [s]. *)
Fixpoint find (eqc : ascii → ascii → bool) (p s : string) : bool :=
  starts eqc p s ||
  match s with
  | "" => false
  | String _ s' => find eqc p s'
  end.

Fixpoint take (n : nat) (s : string) : string :=
  match n, s with
  | S k, String c s' => String c (take k s')
  | _, _ => ""
  end.

Fixpoint drop (n : nat) (s : string) : string :=
  match n, s with
  | S k, String _ s' => drop k s'
  | _, _ => s
  end.

(** Replace-all with an empty pattern: one replacement before every
    character and one at the end. *)
Fixpoint weave (emit : string → string) (s : string) : string :=
  match s with
  | "" => emit ""
  | String c s' => emit "" +:+ String c (weave emit s')
  end.

(** Replace-all with a non-empty pattern: leftmost matches, scanning left
    to right, never overlapping.  [skip] counts the characters of the
    current match that are still to be consumed. *)
Fixpoint scan (eqc : ascii → ascii → bool) (p : string)
    (emit : string → string) (skip : nat) (s : string) : string :=
  match s with
  | "" => ""
  | String c s' =>
      match skip with
      | S k => scan eqc p emit k s'
      | O =>
          if starts eqc p s
          then emit (take (String.length p) s)
                 +:+ scan eqc p emit (String.length p - 1) s'
          else String c (scan eqc p emit 0 s')
      end
  end.

Definition sub_all (eqc : ascii → ascii → bool) (p : string)
    (emit : string → string) (s : string) : string :=
  match p with
  | "" => weave emit s
  | _ => scan eqc p emit 0 s
  end.

(** [p in s], [s.startswith(p)], [s.endswith(p)], [s.replace(old, new)]. *)
Definition contains (p s : string) : bool := find eq_case p s.
Definition startswith (p s : string) : bool := starts eq_case p s.
Definition endswith (p s : string) : bool :=
  starts eq_case (String.rev p) (String.rev s).
Definition replace (old new s : string) : string :=
  sub_all eq_case old (λ _, new) s.

Fixpoint mem (c : ascii) (chars : string) : bool :=
  match chars with
  | "" => false
  | String d chars' => Ascii.eqb c d || mem c chars'
  end.

(** Every character of [s] is in [chars]; the last character of [s]. *)
Fixpoint all_in (chars s : string) : bool :=
  match s with
  | "" => true
  | String c s' => mem c chars && all_in chars s'
  end.

Fixpoint last_char (s : string) : option ascii :=
  match s with
  | "" => None
  | String c "" => Some c
  | String _ s' => last_char s'
  end.

(** [s.rstrip(chars)]: drop every trailing character that is in [chars]. *)
Fixpoint rstrip (chars s : string) : string :=
  match s with
  | "" => ""
  | String c s' =>
      match rstrip chars s' with
      | "" => if mem c chars then "" else String c ""
      | r => String c r
      end
  end.

Fixpoint lstrip (chars s : string) : string :=
  match s with
  | "" => ""
  | String c s' => if mem c chars then lstrip chars s' else s
  end.

(** ASCII white space as [str.isspace] has it: TAB..CR, FS..US, space.
    On ASCII text [str.strip] removes these and nothing else; beyond ASCII
    it also removes the white space of the Unicode tables. *)
Definition whitespace : string :=
  String "009" (String "010" (String "011" (String "012" (String "013"
    (String "028" (String "029" (String "030" (String "031" " ")))))))).

(** [s.strip()]. *)
Definition strip (s : string) : string :=
  rstrip whitespace (lstrip whitespace s).

(** [s.split(sep)] for a one-character separator; never empty. *)
Fixpoint split (sep : ascii) (s : string) : list string :=
  match s with
  | "" => [""]
  | String c s' =>
      if Ascii.eqb c sep then "" :: split sep s'
      else match split sep s' with
           | h :: t => String c h :: t
           | [] => [String c ""]
           end
  end.

(** [s.split(sep)[-1]] and [s[:-n]]. *)
Definition last_field (sep : ascii) (s : string) : string :=
  List.last (split sep s) "".
Definition drop_right (n : nat) (s : string) : string :=
  take (String.length s - n) s.

(** [sep.join(parts)]. *)
Fixpoint join (sep : string) (parts : list string) : string :=
  match parts with
  | [] => ""
  | [x] => x
  | x :: rest => x +:+ sep +:+ join sep rest
  end.

End Str.

(** ** Python [re]: an escaped literal compiled with [IGNORECASE]

    [re.compile(re.escape(old), re.IGNORECASE)] matches the characters of
    [old] one by one, ignoring case, and has no capture group.  The
    replacement given to [Pattern.sub] is a template: its backslash escapes
    are processed before anything is substituted (as documented for
    [re.sub]; unknown escapes of letters are errors since Python 3.7). *)

Module Re.

(** A compiled template: literal characters and references to the whole
    match (written backslash, g, <0>). *)
Inductive piece := Lit (c : ascii) | Whole.

Definition is_digit (c : ascii) : bool :=
  let n := nat_of_ascii c in (48 <=? n)%nat && (n <=? 57)%nat.
Definition is_octal (c : ascii) : bool :=
  let n := nat_of_ascii c in (48 <=? n)%nat && (n <=? 55)%nat.
Definition is_letter (c : ascii) : bool :=
  let n := nat_of_ascii c in
  ((65 <=? n)%nat && (n <=? 90)%nat) || ((97 <=? n)%nat && (n <=? 122)%nat).
Definition digit (c : ascii) : nat := (nat_of_ascii c - 48)%nat.

(** The escapes that stand for one character. *)
Definition escape (c : ascii) : option ascii :=
  match c with
  | "a" => Some "007" | "b" => Some "008" | "f" => Some "012"
  | "n" => Some "010" | "r" => Some "013" | "t" => Some "009"
  | "v" => Some "011" | "\" => Some "\"
  | _ => None
  end%char.

(** A group name is accepted when it is a decimal number naming an
    existing group; the pattern has none, so only group 0 is left.  (The
    rule of Python 3.12; earlier versions take as a number whatever [int]
    reads.) *)
Fixpoint all_zero (name : string) : bool :=
  match name with
  | "" => true
  | String c name' => Ascii.eqb c "0" && all_zero name'
  end.
Definition names_group_0 (name : string) : bool :=
  match name with
  | "" => false
  | _ => all_zero name
  end.

(** [parse_template] of the [re] module, for a pattern with no group.
    [None] is [re.error] (or the [IndexError] of an unknown group name).
    [g = Some acc] while a group name is being read. *)
Fixpoint parse_template (g : option string) (t : string)
    : option (list piece) :=
  match g with
  | Some acc =>
      match t with
      | "" => None
      | String c t' =>
          if Ascii.eqb c ">"
          then if names_group_0 (String.rev acc)
               then cons Whole <$> parse_template None t'
               else None
          else parse_template (Some (String c acc)) t'
      end
  | None =>
      match t with
      | "" => Some []
      | String c t' =>
          if negb (Ascii.eqb c "\") then cons (Lit c) <$> parse_template None t'
          else
            match t' with
            | "" => None
            | String e t2 =>
                if Ascii.eqb e "g" then
                  match t2 with
                  | String "<" t3 => parse_template (Some "") t3
                  | _ => None
                  end
                else if Ascii.eqb e "0" then
                  match t2 with
                  | String d1 t3 =>
                      if is_octal d1 then
                        match t3 with
                        | String d2 t4 =>
                            if is_octal d2
                            then cons (Lit (ascii_of_nat (8 * digit d1 + digit d2)))
                                   <$> parse_template None t4
                            else cons (Lit (ascii_of_nat (digit d1)))
                                   <$> parse_template None t3
                        | "" => Some [Lit (ascii_of_nat (digit d1))]
                        end
                      else cons (Lit "000"%char) <$> parse_template None t2
                  | "" => Some [Lit "000"%char]
                  end
                else if is_digit e then
                  match t2 with
                  | String d1 (String d2 t4) =>
                      if is_octal e && is_octal d1 && is_octal d2
                         && (64 * digit e + 8 * digit d1 + digit d2 <=? 255)%nat
                      then cons (Lit (ascii_of_nat
                                   (64 * digit e + 8 * digit d1 + digit d2)))
                             <$> parse_template None t4
                      else None
                  | _ => None
                  end
                else
                  match escape e with
                  | Some x => cons (Lit x) <$> parse_template None t2
                  | None =>
                      if is_letter e then None
                      else (λ r, Lit c :: Lit e :: r) <$> parse_template None t2
                  end
            end
      end
  end.

Fixpoint expand (pieces : list piece) (m : string) : string :=
  match pieces with
  | [] => ""
  | Lit c :: rest => String c (expand rest m)
  | Whole :: rest => m +:+ expand rest m
  end.

(** [re.escape(old)] compiled with [IGNORECASE]: [pattern.search(s)]. *)
Definition search (old s : string) : bool := Str.find Str.eq_nocase old s.

(** [pattern.sub(repl, s)]: the template is compiled first, whether or
    not the pattern matches. *)
Definition sub (old repl s : string) : option string :=
  pieces ← parse_template None repl;
  Some (Str.sub_all Str.eq_nocase old (expand pieces) s).

End Re.

(** ** Occurrences

    [occurs cs old s]: [old] occurs in [s] under the case rule [cs]
    (exactly when [cs] is on, up to ASCII case when it is off). *)

Definition same_text (cs : bool) (a b : string) : Prop :=
  if cs then a = b else Str.lower a = Str.lower b.

Definition occurs (cs : bool) (old s : string) : Prop :=
  ∃ pre m post, s = pre +:+ m +:+ post ∧ same_text cs m old.

(** The test the code makes before it substitutes. *)
Definition old_present (cs : bool) (old s : string) : bool :=
  if cs then Str.contains old s else Re.search old s.

(** ** The file system and the effects of the code *)

(** The exceptions the modelled code can meet. *)
Inductive exn :=
  | FileNotFoundError
  | NotADirectoryError
  | IsADirectoryError
  | PermissionError
  | ReError
  | ShutilError.

(** A regular file: its text, and whether this process may read and write
    it.  [shutil.copy2] and [shutil.copytree] copy the permissions too. *)
Record file := mkFile { content : string; readable : bool; writable : bool }.

Inductive node := File (f : file) | Dir.

Global Instance file_eq_dec : EqDecision file.
Proof. solve_decision. Defined.
Global Instance node_eq_dec : EqDecision node.
Proof. solve_decision. Defined.

(** The file system: the node at every existing path.  The empty path is
    the directory the tool is started in. *)
Abbreviation fsys := (gmap (list string) node).

(** Every ancestor of an entry is a directory. *)
Definition wf (fs : fsys) : Prop :=
  map_Forall
    (λ p _, Forall (λ n, fs !! take n p = Some Dir) (seq 0 (length p))) fs.

(** A call either returns a value or raises, and leaves a file system. *)
Inductive outcome (A : Type) :=
  | Ok (a : A) (fs : fsys)
  | Raise (e : exn) (fs : fsys).
Arguments Ok {A} a fs.
Arguments Raise {A} e fs.

Definition final {A} (o : outcome A) : fsys :=
  match o with Ok _ fs => fs | Raise _ fs => fs end.

(** [post P Q o]: [P] holds of the value and file system of a call that
    returned, [Q] of the file system left by a call that raised. *)
Definition post {A} (P : A → fsys → Prop) (Q : fsys → Prop)
    (o : outcome A) : Prop :=
  match o with
  | Ok a fs => P a fs
  | Raise _ fs => Q fs
  end.

Definition M (A : Type) : Type := fsys → outcome A.

Definition ret {A} (a : A) : M A := λ fs, Ok a fs.
Definition bind {A B} (m : M A) (k : A → M B) : M B := λ fs,
  match m fs with
  | Ok a fs' => k a fs'
  | Raise e fs' => Raise e fs'
  end.

Declare Scope M_scope.
Delimit Scope M_scope with M.
Notation "x ← y ; z" := (bind y (λ x, z))
  (at level 20, y at level 100, z at level 200, only parsing) : M_scope.
Notation "' x ← y ; z" := (bind y (λ x, z))
  (at level 20, x pattern, y at level 100, z at level 200, only parsing) : M_scope.
Notation "y ;; z" := (bind y (λ _, z))
  (at level 100, z at level 200, only parsing, right associativity) : M_scope.
Local Open Scope M_scope.

Definition get : M fsys := λ fs, Ok fs fs.
Definition put (fs' : fsys) : M unit := λ _, Ok tt fs'.
Definition raise {A} (e : exn) : M A := λ fs, Raise e fs.

Definition or_raise {A} (e : exn) (o : option A) : M A :=
  match o with
  | Some a => ret a
  | None => raise e
  end.

(** [try: body / except Exception: handler]. *)
Definition try_except {A} (body : M A) (handler : exn → M A) : M A := λ fs,
  match body fs with
  | Ok a fs' => Ok a fs'
  | Raise e fs' => handler e fs'
  end.

(** [for x in l: acc = body(x, acc)]. *)
Fixpoint for_each {A S} (l : list A) (body : A → S → M S) (acc : S) : M S :=
  match l with
  | [] => ret acc
  | x :: l' => acc' ← body x acc; for_each l' body acc'
  end.

(** ** [pathlib] *)

Definition name (p : list string) : string := List.last p "".
Definition parent (p : list string) : list string := removelast p.

(** [p / x] for a relative [x]: [x] is cut at the separators, and empty
    parts and [.] are dropped.  (A leading separator and [..] are not given
    their special meaning: [..] is kept as a part, as [pathlib] keeps it,
    and the file system of the model does not resolve it.) *)
Definition parts (x : string) : list string :=
  filter (λ c, c ≠ "" ∧ c ≠ ".") (Str.split "/" x).
Definition joinpath (p : list string) (x : string) : list string := p ++ parts x.

(** [str(p)]. *)
Definition path_str (p : list string) : string :=
  match p with
  | [] => "."
  | _ => Str.join "/" p
  end.

Definition path_exists (fs : fsys) (p : list string) : bool :=
  bool_decide (is_Some (fs !! p)).
Definition is_dir (fs : fsys) (p : list string) : bool :=
  bool_decide (fs !! p = Some Dir).
Definition is_file (fs : fsys) (p : list string) : bool :=
  match fs !! p with
  | Some (File _) => true
  | _ => false
  end.

(** Paths in traversal order: a directory before what it contains. *)
Fixpoint path_leb (p q : list string) : bool :=
  match p, q with
  | [], _ => true
  | _ :: _, [] => false
  | a :: p', b :: q' => if decide (a = b) then path_leb p' q' else String.leb a b
  end.

Definition below (d p : list string) : Prop := d `prefix_of` p ∧ d ≠ p.

(** [d.rglob('*')]: every entry below [d], files and directories.
    [Path.rglob] yields them in the order of the directory listings, which
    the file system decides; the model takes the sorted one. *)
Definition rglob (fs : fsys) (d : list string) : list (list string) :=
  merge_sort (λ p q, path_leb p q) (filter (below d) (map_to_list fs).*1).

(** ** [open], [shutil] *)

(** [open(p, 'r', encoding='utf-8', errors='ignore').read()], for a file
    that is ASCII text without carriage returns: what is read is then what
    the file holds.  What other bytes decode to, and the carriage returns
    that are read as line feeds, are not modelled. *)
Definition read_text (p : list string) : M string := λ fs,
  match fs !! p with
  | None => Raise FileNotFoundError fs
  | Some Dir => Raise IsADirectoryError fs
  | Some (File f) =>
      if readable f then Ok (content f) fs else Raise PermissionError fs
  end.

(** [open(p, 'w', encoding='utf-8').write(text)]: the file holds the text
    as given, which is its UTF-8 encoding when the text is ASCII. *)
Definition write_text (p : list string) (text : string) : M unit := λ fs,
  match fs !! p with
  | Some Dir => Raise IsADirectoryError fs
  | Some (File f) =>
      if writable f
      then Ok tt (<[p := File (mkFile text (readable f) (writable f))]> fs)
      else Raise PermissionError fs
  | None =>
      if is_dir fs (parent p)
      then Ok tt (<[p := File (mkFile text true true)]> fs)
      else Raise FileNotFoundError fs
  end.

(** [shutil.copy2(src, dst)] for a [dst] that does not exist. *)
Definition copy2 (src dst : list string) : M unit := λ fs,
  match fs !! src with
  | None => Raise FileNotFoundError fs
  | Some Dir => Raise IsADirectoryError fs
  | Some (File f) =>
      if negb (readable f) then Raise PermissionError fs
      else if is_dir fs (parent dst) then Ok tt (<[dst := File f]> fs)
      else Raise FileNotFoundError fs
  end.

(** [os.makedirs(d)]: [d] and its missing ancestors, outermost first. *)
Fixpoint makedirs_upto (n : nat) (d : list string) : M unit :=
  match n with
  | O => ret tt
  | S k =>
      makedirs_upto k d;;
      fs ← get;
      match fs !! take n d with
      | None => put (<[take n d := Dir]> fs)
      | Some Dir => ret tt
      | Some (File _) => raise NotADirectoryError
      end
  end.
Definition makedirs (d : list string) : M unit := makedirs_upto (length d) d.

(** What [copytree] can copy: directories and readable files. *)
Definition copyable (n : node) : bool :=
  match n with
  | Dir => true
  | File f => readable f
  end.

(** [shutil.copytree(src, dst)] for a [dst] that does not exist: the
    directory is made, every entry below [src] is copied as it was when the
    call began, and the files that could not be read are reported by one
    exception at the end. *)
Definition copytree (src dst : list string) : M unit :=
  fs ← get;
  match fs !! src with
  | None => raise FileNotFoundError
  | Some (File _) => raise NotADirectoryError
  | Some Dir =>
      makedirs dst;;
      fs1 ← get;
      let inside := filter (λ kn, below src kn.1) (map_to_list fs) in
      let copied :=
        (λ kn, (dst ++ drop (length src) kn.1, kn.2))
          <$> filter (λ kn, copyable kn.2 = true) inside in
      put (list_to_map copied ∪ fs1);;
      if forallb (λ kn, copyable kn.2) inside then ret tt else raise ShutilError
  end.

(** ** Frames

    [rewritten cs old fs fs']: [fs'] has the entries of [fs]; the only
    differences are texts of files in which [old] occurred in [fs]. *)
Definition rewritten (cs : bool) (old : string) (fs fs' : fsys) : Prop :=
  ∀ p,
    fs' !! p = fs !! p
    ∨ ∃ f text,
        fs !! p = Some (File f)
        ∧ occurs cs old (content f)
        ∧ fs' !! p = Some (File (mkFile text (readable f) (writable f))).

(** [outside d fs fs']: no entry of [fs] is missing in [fs'], and away
    from [d] and what is below it, [fs'] is [fs] with, at most, new
    directories. *)
Definition outside (d : list string) (fs fs' : fsys) : Prop :=
  (∀ p, is_Some (fs !! p) → is_Some (fs' !! p))
  ∧ ∀ p, ¬ d `prefix_of` p →
      fs' !! p = fs !! p ∨ (fs !! p = None ∧ fs' !! p = Some Dir).

(** [kept fs fs']: every entry of [fs] is in [fs'] as it was. *)
Definition kept (fs fs' : fsys) : Prop :=
  ∀ p, is_Some (fs !! p) → fs' !! p = fs !! p.

(** ** The texts on which the model is exact

    Python decodes a file as UTF-8, drops what it cannot decode, and reads
    a carriage return, alone or before a line feed, as a line feed; it
    folds case ([str.lower], [re.IGNORECASE]) and strips white space
    ([str.strip]) by the Unicode tables.  The model keeps the bytes, and
    folds and strips ASCII.  The two agree on ASCII text, and what is read
    from a file is what the file holds when it is ASCII without carriage
    returns.  The statements that depend on reading, folding or stripping
    carry these conditions as hypotheses. *)
Definition is_ascii (c : ascii) : bool := (nat_of_ascii c <? 128)%nat.

Fixpoint ascii_text (s : string) : bool :=
  match s with
  | "" => true
  | String c s' => is_ascii c && ascii_text s'
  end.

(** ASCII, and no carriage return. *)
Definition plain_text (s : string) : bool :=
  ascii_text s && negb (Str.mem "013" s).

Definition plain_node (n : node) : bool :=
  match n with
  | File f => plain_text (content f)
  | Dir => true
  end.

(** Every file is ASCII text without carriage returns. *)
Definition plain_files (fs : fsys) : Prop :=
  map_Forall (λ _ n, plain_node n = true) fs.

(** A replacement that the model substitutes as the code does: [old_str]
    is ASCII, [new_str] is ASCII without carriage returns and, where
    [re.sub] takes it as a template (case sensitivity off), has no
    backslash: the escapes a template may hold are not the same in every
    version of Python. *)
Definition plain_replacement (cs : bool) (old_str new_str : string) : bool :=
  ascii_text old_str && plain_text new_str
  && (cs || negb (Str.mem "\" new_str)).

(** ** The configuration

    The fields of [GitFileRename] that the modelled methods read. *)

Record config := mkConfig {
  git_base_url : string;
  git_auth_method : string;
  git_username : string;
  git_auth_token : string;
  base_branch : string;
  branch_name : string;
  case_sensitive : bool;
  work_dir : list string;
  commit_message : string;
  fix_mode : bool;
  replacements : list (string * string)
}.

(** ** The rename-and-propagate engine *)

Section Engine.

Variable self : config.

(** The [file] utility: from the bytes of a readable file to the
    description it prints; [None] when the utility is not installed. *)
Variable file_magic : option (string → string).

Definition newline : string := String "010" "".

(** Standard output of [file <path>]. *)
Definition file_stdout (magic : string → string) (fs : fsys)
    (p : list string) : string :=
  let s := path_str p in
  let description :=
    match fs !! p with
    | None => "cannot open `" +:+ s +:+ "' (No such file or directory)"
    | Some Dir => "directory"
    | Some (File f) =>
        if readable f then magic (content f)
        else "regular file, no read permission"
    end in
  s +:+ ": " +:+ description +:+ newline.

(** [self.run_command(['file', str(file_path)], check=False).stdout]. *)
Definition run_file (p : list string) : M string :=
  match file_magic with
  | None => raise FileNotFoundError
  | Some magic => fs ← get; ret (file_stdout magic fs p)
  end.

(** [pattern.sub(new_str, text)], raising [re.error]. *)
Definition re_sub (old_str new_str text : string) : M string :=
  or_raise ReError (Re.sub old_str new_str text).

(** The test of [find_items_with_pattern] on one item. *)
Definition name_matches (pattern : string) (item : list string) : bool :=
  bool_decide (".git" ∉ item) &&
  (if case_sensitive self
   then Str.contains pattern (name item)
   else Str.contains (Str.lower pattern) (Str.lower (name item))).

Definition find_items_with_pattern (fs : fsys) (repo_dir : list string)
    (pattern : string) : list (list string) :=
  filter (λ item, name_matches pattern item = true) (rglob fs repo_dir).

(** The body of the [try] of [replace_content_in_file]. *)
Definition replace_content_try (file_path : list string)
    (old_str new_str : string) : M bool :=
  stdout ← run_file file_path;
  if negb (Str.contains "text" (Str.lower stdout)) then ret false else
  content ← read_text file_path;
  if case_sensitive self then
    if negb (Str.contains old_str content) then ret false else
    write_text file_path (Str.replace old_str new_str content);;
    ret true
  else
    if negb (Re.search old_str content) then ret false else
    new_content ← re_sub old_str new_str content;
    write_text file_path new_content;;
    ret true.

Definition replace_content_in_file (file_path : list string)
    (old_str new_str : string) : M bool :=
  try_except (replace_content_try file_path old_str new_str)
    (λ _, ret false).

Definition replace_content_in_directory (dir_path : list string)
    (old_str new_str : string) : M Z :=
  fs ← get;
  for_each (rglob fs dir_path)
    (λ file_path (count : Z),
       fs' ← get;
       if is_file fs' file_path && bool_decide (".git" ∉ file_path) then
         changed ← replace_content_in_file file_path old_str new_str;
         ret (if changed then count + 1 else count)
       else ret count)
    0.

(** The new name of an item, as [create_renamed_copy] computes it;
    [None] when [pattern.sub] raises [re.error]. *)
Definition new_name_of (item_name old_str new_str : string) : option string :=
  if case_sensitive self then Some (Str.replace old_str new_str item_name)
  else Re.sub old_str new_str item_name.

Definition create_renamed_copy (original_item : list string)
    (old_str new_str : string) (dry_run : bool) : M bool :=
  let item_name := name original_item in
  new_name ← or_raise ReError (new_name_of item_name old_str new_str);
  if decide (new_name = item_name) then ret false else
  let new_item := joinpath (parent original_item) new_name in
  fs ← get;
  if path_exists fs new_item then ret false else
  if dry_run then ret true else
  if is_dir fs original_item then
    copytree original_item new_item;;
    replace_content_in_directory new_item old_str new_str;;
    ret true
  else
    copy2 original_item new_item;;
    replace_content_in_file new_item old_str new_str;;
    ret true.

(** The loop of [process_repository] over the matching items, and its
    loop over the replacement pairs. *)
Definition copy_items (items : list (list string)) (old_str new_str : string)
    (dry_run : bool) (items_copied : Z) : M Z :=
  for_each items
    (λ item (items_copied : Z),
       created ← create_renamed_copy item old_str new_str dry_run;
       ret (if created then items_copied + 1 else items_copied))
    items_copied.

Definition copy_pairs (repo_dir : list string)
    (replacements : list (string * string)) (dry_run : bool) : M Z :=
  for_each replacements
    (λ '(old_str, new_str) (items_copied : Z),
       fs ← get;
       copy_items (find_items_with_pattern fs repo_dir old_str)
         old_str new_str dry_run items_copied)
    0.

(** One item of the loop of [process_repository_fix_mode]. *)
Definition fix_item (item : list string) (old_str new_str : string)
    (dry_run : bool) (items_fixed : Z) : M Z :=
  fs ← get;
  if is_dir fs item then
    if dry_run then ret (items_fixed + 1)
    else
      count ← replace_content_in_directory item old_str new_str;
      ret (if 0 <? count then items_fixed + 1 else items_fixed)
  else
    if dry_run then
      try_except
        (content ← read_text item;
         ret (if Str.contains old_str content
               then items_fixed + 1 else items_fixed))
        (λ _, ret items_fixed)
    else
      changed ← replace_content_in_file item old_str new_str;
      ret (if changed then items_fixed + 1 else items_fixed).

Definition fix_items (items : list (list string)) (old_str new_str : string)
    (dry_run : bool) (items_fixed : Z) : M Z :=
  for_each items (λ item, fix_item item old_str new_str dry_run) items_fixed.

Definition fix_pairs (repo_dir : list string)
    (replacements : list (string * string)) (dry_run : bool) : M Z :=
  for_each replacements
    (λ '(old_str, new_str) (items_fixed : Z),
       fs ← get;
       fix_items (find_items_with_pattern fs repo_dir new_str)
         old_str new_str dry_run items_fixed)
    0.

End Engine.

(** ** The repository orchestrator *)

(** What [run] prints in its summary, and the exit code it returns. *)
Record summary := mkSummary {
  total_items : Z;
  successful_repos : Z;
  total_repos : Z;
  exit_code : Z
}.

Section Orchestrator.

Variable self : config.
Variable file_magic : option (string → string).

(** [git clone url target_dir], by attempt number; [None] is a failed
    command ([CalledProcessError]). *)
Variable git_clone : nat → string → list string → fsys → option fsys.

(** The methods that only sequence [git] commands in a clone. *)
Variable checkout_base_branch : list string → string → M bool.
Variable create_or_checkout_branch : list string → string → M bool.
Variable git_add_commit_push : list string → string → string → M bool.

Definition is_url (repo_input : string) : bool :=
  Str.startswith "http://" repo_input
  || Str.startswith "https://" repo_input
  || Str.startswith "git@" repo_input.

Definition construct_repo_url (repo_input : string) : string :=
  if is_url repo_input then repo_input else
  let repo_name := Str.rstrip ".git" repo_input in
  if decide (git_auth_method self = "token") then
    let base_url := Str.replace "https://" "" (git_base_url self) in
    "https://" +:+ git_username self +:+ ":" +:+ git_auth_token self
      +:+ "@" +:+ base_url +:+ "/" +:+ repo_name +:+ ".git"
  else if decide (git_auth_method self = "ssh") then
    if Str.contains "github.com" (git_base_url self) then
      let org := Str.last_field "/" (git_base_url self) in
      "git@github.com:" +:+ org +:+ "/" +:+ repo_name +:+ ".git"
    else git_base_url self +:+ "/" +:+ repo_name +:+ ".git"
  else git_base_url self +:+ "/" +:+ repo_name +:+ ".git".

Definition get_repo_name (repo_input : string) : string :=
  if is_url repo_input then
    let name := Str.last_field "/" (Str.rstrip "/" repo_input) in
    if Str.endswith ".git" name then Str.drop_right 4 name else name
  else Str.rstrip ".git" repo_input.

Definition max_retries : nat := 3.

(** The [for retry in range(max_retries)] loop of [clone_repository]. *)
Fixpoint clone_attempts (retries : list nat) (url : string)
    (target_dir : list string) : M bool :=
  match retries with
  | [] => ret false
  | retry :: rest => λ fs,
      match git_clone retry url target_dir fs with
      | Some fs' => Ok true fs'
      | None =>
          if (retry <? max_retries - 1)%nat
          then clone_attempts rest url target_dir fs
          else Ok false fs
      end
  end.

Definition clone_repository (url : string) (target_dir : list string)
    (repo_name : string) : M bool :=
  fs ← get;
  if path_exists fs target_dir then ret true
  else clone_attempts (seq 0 max_retries) url target_dir.

Definition when (b : bool) (m : M bool) : M unit :=
  if b then m;; ret tt else ret tt.

Definition process_repository (repo_input : string) (dry_run push : bool)
    : M Z :=
  let repo_url := construct_repo_url repo_input in
  let repo_name := get_repo_name repo_input in
  let repo_dir := joinpath (work_dir self) repo_name in
  cloned ← clone_repository repo_url repo_dir repo_name;
  if negb cloned then ret 0 else
  when (bool_decide (base_branch self ≠ ""))
    (checkout_base_branch repo_dir (base_branch self));;
  when (bool_decide (branch_name self ≠ ""))
    (create_or_checkout_branch repo_dir (branch_name self));;
  items_copied ← copy_pairs self file_magic repo_dir (replacements self) dry_run;
  when (push && negb dry_run && (0 <? items_copied))
    (git_add_commit_push repo_dir (commit_message self) repo_name);;
  ret items_copied.

Definition process_repository_fix_mode (repo_input : string)
    (dry_run push : bool) : M Z :=
  let repo_url := construct_repo_url repo_input in
  let repo_name := get_repo_name repo_input in
  let repo_dir := joinpath (work_dir self) repo_name in
  cloned ← clone_repository repo_url repo_dir repo_name;
  if negb cloned then ret 0 else
  when (bool_decide (base_branch self ≠ ""))
    (checkout_base_branch repo_dir (base_branch self));;
  when (bool_decide (branch_name self ≠ ""))
    (create_or_checkout_branch repo_dir (branch_name self));;
  items_fixed ← fix_pairs self file_magic repo_dir (replacements self) dry_run;
  when (push && negb dry_run && (0 <? items_fixed))
    (git_add_commit_push repo_dir (commit_message self) repo_name);;
  ret items_fixed.

(** One line of the repository list in the loop of [run]. *)
Definition run_line (dry_run push : bool) (line : string)
    (counts : Z * Z * Z) : M (Z * Z * Z) :=
  let '(total_items, successful_repos, total_repos) := counts in
  let line := Str.strip line in
  if bool_decide (line = "") || Str.startswith "#" line then ret counts else
  let total_repos := total_repos + 1 in
  items ← (if fix_mode self
           then process_repository_fix_mode line dry_run push
           else process_repository line dry_run push);
  if 0 <=? items
  then ret (total_items + items, successful_repos + 1, total_repos)
  else ret (total_items, successful_repos, total_repos).

(** [run], once the command line has overridden [self]; [repo_list] is
    the lines of the repository list file, [None] when it is missing. *)
Definition run (repo_list : option (list string)) (dry_run push : bool)
    : M summary :=
  match repo_list with
  | None => ret (mkSummary 0 0 0 1)
  | Some lines =>
      match replacements self with
      | [] => ret (mkSummary 0 0 0 1)
      | _ =>
          makedirs (work_dir self);;
          '(total_items, successful_repos, total_repos) ←
            for_each lines (run_line dry_run push) (0, 0, 0);
          ret (mkSummary total_items successful_repos total_repos
                 (if successful_repos =? total_repos then 0 else 1))
      end
  end.

End Orchestrator.

(** ** Sample inputs *)

Module Sample.

Definition cfg (cs : bool) : config :=
  mkConfig "https://git.example.com/acme" "none" "" "" "" "" cs
    ["repos_temp"] "Update string replacements across repository" false
    [("dev", "prod")].

(** A [file] utility that calls every readable file text. *)
Definition magic : option (string → string) := Some (λ _, "ASCII text").

Definition text (s : string) : node := File (mkFile s true true).
Definition read_only (s : string) : node := File (mkFile s true false).

(** A clone in which the renamed file is already there. *)
Definition taken : fsys :=
  list_to_map
    [([], Dir); (["repo"], Dir);
     (["repo"; "dev-service.yaml"], text "host: dev.example");
     (["repo"; "prod-service.yaml"], text "host: live.example")].

(** A clone with a directory to rename, and the same after the copy. *)
Definition tree : fsys :=
  list_to_map
    [([], Dir); (["repo"], Dir); (["repo"; "dev"], Dir);
     (["repo"; "dev"; "readme.md"], text "dev mode")].

Definition tree_copied : fsys :=
  list_to_map
    [([], Dir); (["repo"], Dir); (["repo"; "dev"], Dir);
     (["repo"; "dev"; "readme.md"], text "dev mode");
     (["repo"; "prod"], Dir);
     (["repo"; "prod"; "readme.md"], text "prod mode")].

(** A clone already renamed, with nothing left to fix. *)
Definition fixed : fsys :=
  list_to_map
    [([], Dir); (["repo"], Dir); (["repo"; "prod"], Dir);
     (["repo"; "prod"; "readme.md"], text "prod mode")].

(** Two files that get the same new name. *)
Definition clash : fsys :=
  list_to_map
    [([], Dir); (["repo"], Dir);
     (["repo"; "ab"], text "first"); (["repo"; "ba"], text "second")].

(** No network: every [git clone] fails; the other [git] steps do
    nothing. *)
Definition git_clone_down (retry : nat) (url : string)
    (target_dir : list string) (fs : fsys) : option fsys := None.
Definition git_idle (repo_dir : list string) (branch : string) : M bool :=
  ret true.
Definition git_push_idle (repo_dir : list string) (message repo : string)
    : M bool := ret true.

(** A renamed file with a stale line. *)
Definition stale : fsys :=
  list_to_map
    [([], Dir); (["repo"], Dir);
     (["repo"; "prod-service.yaml"], text "dev endpoint")].

End Sample.

(** ** Vocabulary for the further properties *)

(** A line of the repository list that names a repository: not blank and
    not a comment, once stripped. *)
Definition repo_line (line : string) : bool :=
  negb (bool_decide (Str.strip line = "")
        || Str.startswith "#" (Str.strip line)).

(** [content_only fs fs']: [fs'] has the entries of [fs], directories
    where [fs] has directories and files with the same permissions where
    [fs] has files; only texts of files may differ. *)
Definition content_only (fs fs' : fsys) : Prop :=
  ∀ p,
    fs' !! p = fs !! p
    ∨ ∃ f text,
        fs !! p = Some (File f)
        ∧ fs' !! p = Some (File (mkFile text (readable f) (writable f))).

(** ** Parsing the replacement pairs *)

Definition dquote : ascii := "034".

(** [re.findall] of the pattern: a double quote, one or more characters
    that are not double quotes, a double quote; the list of what is between
    the quotes.  [run] is [Some m] after an opening quote, with the
    characters [m] read since.  A quote met with nothing read opens anew;
    the end of the text drops an unclosed run. *)
Fixpoint findall_quoted (run : option string) (s : string) : list string :=
  match s with
  | "" => []
  | String c s' =>
      if Ascii.eqb c dquote then
        match run with
        | Some (String _ _ as m) => m :: findall_quoted None s'
        | _ => findall_quoted (Some "") s'
        end
      else
        match run with
        | Some m => findall_quoted (Some (m +:+ String c "")) s'
        | None => findall_quoted None s'
        end
  end.

(** [s.split(sep, 1)] when [sep] is in [s]; [None] when it is not. *)
Fixpoint split_once (sep : ascii) (s : string) : option (string * string) :=
  match s with
  | "" => None
  | String c s' =>
      if Ascii.eqb c sep then Some ("", s')
      else
        match split_once sep s' with
        | Some (a, b) => Some (String c a, b)
        | None => None
        end
  end.

Definition _parse_replacements (replacements_str : string)
    : list (string * string) :=
  omap
    (λ m,
       match split_once "|" m with
       | Some (old, new) => Some (Str.strip old, Str.strip new)
       | None => None
       end)
    (findall_quoted None replacements_str).

(** An entry of the array as the configuration file writes it. *)
Definition entry (e : string * string) : string :=
  String dquote (e.1 +:+ String "|" (e.2 +:+ String dquote "")).

(** Entries, each after some text without a double quote. *)
Fixpoint entries (l : list (string * (string * string))) : string :=
  match l with
  | [] => ""
  | (gap, e) :: l' => gap +:+ entry e +:+ entries l'
  end.

(** A pair without double quotes, with no bar in its first component, and
    with nothing for [strip] to remove. *)
Definition plain_pair (e : string * string) : Prop :=
  Str.mem dquote e.1 = false ∧ Str.mem dquote e.2 = false
  ∧ Str.mem "|" e.1 = false
  ∧ Str.strip e.1 = e.1 ∧ Str.strip e.2 = e.2.

(** ** The commands of a push *)

(** [git_add_commit_push] only runs [git] commands in the clone.  It is
    modelled against a shell that answers each command from the commands
    run before it; the state is the list of the commands run so far. *)
Module Git.

(** What [subprocess.run] hands back. *)
Record completed := mkCompleted { returncode : Z; stdout : string }.

(** A command with the directory it runs in. *)
Definition call : Type := list string * list string.

Definition shell : Type := list call → call → completed.

(** A method returns, or raises [subprocess.CalledProcessError]. *)
Inductive result (A : Type) :=
  | Returned (a : A) (log : list call)
  | CalledProcessError (log : list call).
Arguments Returned {A} a log.
Arguments CalledProcessError {A} log.

Definition and_then {A B : Type} (m : list call → result A)
    (k : A → list call → result B) (log : list call) : result B :=
  match m log with
  | Returned a log' => k a log'
  | CalledProcessError log' => CalledProcessError log'
  end.

Definition except_CalledProcessError {A : Type} (m : list call → result A)
    (handler : list call → result A) (log : list call) : result A :=
  match m log with
  | Returned a log' => Returned a log'
  | CalledProcessError log' => handler log'
  end.

Section Commands.

Variable sh : shell.

Definition run_command (cmd : list string) (cwd : list string) (check : bool)
    (log : list call) : result completed :=
  let result := sh log (cwd, cmd) in
  if check && negb (returncode result =? 0)
  then CalledProcessError (log ++ [(cwd, cmd)])
  else Returned result (log ++ [(cwd, cmd)]).

(** The [for retry in range(max_retries)] loop of [git_add_commit_push]. *)
Fixpoint push_attempts (retries : list nat) (repo_dir : list string)
    (branch : string) (log : list call) : result bool :=
  match retries with
  | [] => Returned false log
  | retry :: rest =>
      except_CalledProcessError
        (and_then (run_command ["git"; "push"; "origin"; branch] repo_dir true)
           (λ _, Returned true))
        (if (retry <? max_retries - 1)%nat
         then push_attempts rest repo_dir branch
         else Returned false)
        log
  end.

Definition git_add_commit_push (repo_dir : list string)
    (commit_message repo_name : string) : list call → result bool :=
  except_CalledProcessError
    (and_then (run_command ["git"; "status"; "--porcelain"] repo_dir true)
       (λ result,
          if bool_decide (Str.strip (stdout result) = "")
          then Returned true
          else
            and_then (run_command ["git"; "add"; "-A"] repo_dir true) (λ _,
            and_then
              (run_command ["git"; "commit"; "-m"; commit_message] repo_dir
                 true) (λ _,
            and_then
              (run_command ["git"; "branch"; "--show-current"] repo_dir true)
              (λ result,
                 let branch := Str.strip (stdout result) in
                 push_attempts (seq 0 max_retries) repo_dir branch)))))
    (Returned false).

End Commands.

End Git.

(** Unfolding the monad. *)
Ltac unfold_M :=
  unfold re_sub in *;
  unfold bind, ret, get, put, raise, or_raise, try_except in *.

(** * Properties *)

(** ** The library operations on examples *)

Example replace_all_occurrences :
  Str.replace "dev" "prod" "dev-service-dev.yaml" = "prod-service-prod.yaml".
Proof. reflexivity. Qed.

Example replace_leftmost_first : Str.replace "aa" "b" "aaaaa" = "bba".
Proof. reflexivity. Qed.

Example replace_empty_pattern : Str.replace "" "x" "abc" = "xaxbxcx".
Proof. reflexivity. Qed.

Example rstrip_is_a_character_set : Str.rstrip ".git" "my-tool.git" = "my-tool".
Proof. reflexivity. Qed.

Example sub_ignores_case :
  Re.sub "Dev" "Prod" "DEV_CONFIG dev_value" = Some "Prod_CONFIG Prod_value".
Proof. reflexivity. Qed.

Example sub_whole_match :
  Re.sub "dev" "<\g<0>>" "Dev dEV" = Some "<Dev> <dEV>".
Proof. reflexivity. Qed.

Example sub_octal_escape : Re.sub "dev" "\101\0" "dev" = Some (String "A" (String "000" "")).
Proof. reflexivity. Qed.

Example sub_group_reference_fails : Re.sub "dev" "prod\1" "xyz" = None.
Proof. reflexivity. Qed.

(** ** The scenarios of the specification *)

(** A file [dev-service.yaml]: a new [prod-service.yaml] with every [dev]
    replaced, the original untouched. *)
Example scenario_file :
  copy_pairs (Sample.cfg true) Sample.magic ["repo"] [("dev", "prod")] false
    (delete ["repo"; "prod-service.yaml"] Sample.taken)
  = Ok 1 (<[ ["repo"; "prod-service.yaml"] := Sample.text "host: prod.example" ]>
            Sample.taken).
Proof. vm_compute. reflexivity. Qed.

(** A directory [dev/] with [readme.md]: a new [prod/] with the text
    replaced, [dev/] and its contents unchanged. *)
Example scenario_directory :
  copy_pairs (Sample.cfg true) Sample.magic ["repo"] [("dev", "prod")] false
    Sample.tree
  = Ok 1 Sample.tree_copied.
Proof. vm_compute. reflexivity. Qed.

(** Fix mode: the stale line of [prod-service.yaml] is repaired in place. *)
Example scenario_fix :
  fix_pairs (Sample.cfg true) Sample.magic ["repo"] [("dev", "prod")] false
    Sample.stale
  = Ok 1 (<[ ["repo"; "prod-service.yaml"] := Sample.text "prod endpoint" ]>
            Sample.stale).
Proof. vm_compute. reflexivity. Qed.

(** ** Facts about text *)

Module StrFacts.

Lemma app_nil_l (s : string) : "" +:+ s = s.
Proof. reflexivity. Qed.

Lemma app_cons (c : ascii) (s t : string) :
  String c s +:+ t = String c (s +:+ t).
Proof. reflexivity. Qed.

Lemma app_nil_r (s : string) : s +:+ "" = s.
Proof. induction s as [|c s IH]; [done | by rewrite app_cons, IH]. Qed.

Lemma app_assoc (s t u : string) : (s +:+ t) +:+ u = s +:+ t +:+ u.
Proof. induction s as [|c s IH]; [done | by rewrite !app_cons, IH]. Qed.

Lemma eq_nocase_iff (a b : ascii) :
  Str.eq_nocase a b = true ↔ Str.lower_char a = Str.lower_char b.
Proof. apply Ascii.eqb_eq. Qed.

(** [starts] with exact comparison is the prefix relation. *)
Lemma starts_case_iff (p s : string) :
  Str.starts Str.eq_case p s = true ↔ ∃ post, s = p +:+ post.
Proof.
  revert s. induction p as [|a p IH]; intros s; simpl.
  - split; [intros _; by exists s | done].
  - destruct s as [|b s]; [split; [done | by intros [post ?]] |].
    rewrite andb_true_iff, IH. unfold Str.eq_case. rewrite Ascii.eqb_eq.
    split.
    + intros [-> [post ->]]. by exists post.
    + intros [post Hs]. rewrite app_cons in Hs. injection Hs as -> ->. eauto.
Qed.

(** [starts] ignoring case: some prefix of [s] equals [p] up to case. *)
Lemma starts_nocase_iff (p s : string) :
  Str.starts Str.eq_nocase p s = true
  ↔ ∃ m post, s = m +:+ post ∧ Str.lower m = Str.lower p.
Proof.
  revert s. induction p as [|a p IH]; intros s; simpl.
  - split; [intros _; by exists "", s | done].
  - destruct s as [|b s].
    + split; [done |]. intros (m & post & Hs & Hm).
      destruct m; [done | by rewrite app_cons in Hs].
    + rewrite andb_true_iff, IH, eq_nocase_iff. split.
      * intros [Hab (m & post & -> & Hm)].
        exists (String b m), post. simpl. by rewrite Hm, Hab.
      * intros (m & post & Hs & Hm). destruct m as [|c m]; [done |].
        rewrite app_cons in Hs. injection Hs as -> ->.
        simpl in Hm. injection Hm as Hc Hm. eauto.
Qed.

Lemma find_iff (eqc : ascii → ascii → bool) (p s : string) :
  Str.find eqc p s = true
  ↔ ∃ pre t, s = pre +:+ t ∧ Str.starts eqc p t = true.
Proof.
  induction s as [|c s IH].
  - simpl. rewrite orb_false_r. split.
    + intros H. by exists "", "".
    + intros (pre & t & Hs & Ht). destruct pre; [|done].
      rewrite app_nil_l in Hs. by subst t.
  - cbn [Str.find]. rewrite orb_true_iff, IH. split.
    + intros [H | (pre & t & -> & Ht)].
      * by exists "", (String c s).
      * by exists (String c pre), t.
    + intros (pre & t & Hs & Ht). destruct pre as [|d pre].
      * left. rewrite app_nil_l in Hs. by subst t.
      * right. rewrite app_cons in Hs. injection Hs as -> ->. eauto.
Qed.

Lemma scan_skip eqc p emit (k : nat) (s : string) :
  Str.scan eqc p emit k s = Str.scan eqc p emit 0 (Str.drop k s).
Proof.
  revert k. induction s as [|c s IH]; intros [|k]; simpl; auto.
Qed.

(** The equations of replace-all for a non-empty pattern: at a match the
    replacement is emitted and the scan resumes after the match; elsewhere
    one character is kept. *)
Lemma sub_all_match eqc p emit (s : string) :
  p ≠ "" →
  Str.starts eqc p s = true →
  Str.sub_all eqc p emit s
  = emit (Str.take (String.length p) s)
      +:+ Str.sub_all eqc p emit (Str.drop (String.length p) s).
Proof.
  intros Hp Hs. destruct p as [|a p]; [done |]. unfold Str.sub_all.
  destruct s as [|b s]; [done |].
  cbn [Str.scan]. rewrite Hs. f_equal.
  rewrite scan_skip. simpl. by rewrite Nat.sub_0_r.
Qed.

Lemma sub_all_no_match eqc p emit (c : ascii) (s : string) :
  p ≠ "" →
  Str.starts eqc p (String c s) = false →
  Str.sub_all eqc p emit (String c s) = String c (Str.sub_all eqc p emit s).
Proof.
  intros Hp Hs. destruct p as [|a p]; [done |]. unfold Str.sub_all.
  cbn [Str.scan]. by rewrite Hs.
Qed.

Lemma sub_all_end eqc p emit :
  p ≠ "" → Str.sub_all eqc p emit "" = "".
Proof. by destruct p. Qed.

End StrFacts.

Lemma old_present_iff (cs : bool) (old s : string) :
  old_present cs old s = true ↔ occurs cs old s.
Proof.
  unfold old_present, occurs, same_text, Str.contains, Re.search.
  destruct cs; rewrite StrFacts.find_iff.
  - split.
    + intros (pre & t & -> & [post ->]%StrFacts.starts_case_iff). eauto.
    + intros (pre & m & post & -> & ->). exists pre, (old +:+ post).
      split; [done |]. apply StrFacts.starts_case_iff. eauto.
  - split.
    + intros (pre & t & -> & (m & post & -> & Hm)%StrFacts.starts_nocase_iff).
      eauto.
    + intros (pre & m & post & -> & Hm). exists pre, (m +:+ post).
      split; [done |]. apply StrFacts.starts_nocase_iff. eauto.
Qed.

(** ** The content substitutor *)


Section Substitutor.

Variable self : config.
Variable file_magic : option (string → string).

(** What one call can do: nothing, or rewrite the text of a file it
    could read and write, in which [old_str] was present. *)
Lemma replace_content_try_cases file_path old_str new_str fs :
  replace_content_try self file_magic file_path old_str new_str fs = Ok false fs
  ∨ (∃ e, replace_content_try self file_magic file_path old_str new_str fs = Raise e fs)
  ∨ (∃ f text,
       fs !! file_path = Some (File f)
       ∧ readable f = true ∧ writable f = true
       ∧ old_present (case_sensitive self) old_str (content f) = true
       ∧ replace_content_try self file_magic file_path old_str new_str fs
         = Ok true (<[file_path := File (mkFile text true true)]> fs)).
Proof.
  unfold replace_content_try, run_file, read_text, write_text, old_present.
  unfold_M. destruct file_magic as [magic|]; [|right; left; eauto].
  destruct (Str.contains "text" _); simpl; [|by left].
  destruct (fs !! file_path) as [[f|]|] eqn:Hf; [|right; left; eauto..].
  destruct (readable f) eqn:Hr; [|right; left; eauto].
  destruct (case_sensitive self).
  - destruct (Str.contains old_str (content f)) eqn:Hc; simpl; [|by left].
    rewrite ?Hf. destruct (writable f) eqn:Hw; [|right; left; eauto].
    right; right. exists f, (Str.replace old_str new_str (content f)).
    by rewrite Hr.
  - destruct (Re.search old_str (content f)) eqn:Hc; simpl; [|by left].
    destruct (Re.sub old_str new_str (content f)) as [text|];
      [|right; left; eauto].
    simpl. rewrite ?Hf. destruct (writable f) eqn:Hw; [|right; left; eauto].
    right; right. exists f, text. by rewrite Hr.
Qed.

Lemma replace_content_in_file_cases file_path old_str new_str fs :
  replace_content_in_file self file_magic file_path old_str new_str fs = Ok false fs
  ∨ (∃ f text,
       fs !! file_path = Some (File f)
       ∧ readable f = true ∧ writable f = true
       ∧ old_present (case_sensitive self) old_str (content f) = true
       ∧ replace_content_in_file self file_magic file_path old_str new_str fs
         = Ok true (<[file_path := File (mkFile text true true)]> fs)).
Proof.
  pose proof (replace_content_try_cases file_path old_str new_str fs) as H.
  unfold replace_content_in_file, try_except.
  destruct H as [H | [[e H] | (f & text & Hf & Hr & Hw & Hc & H)]]; rewrite H.
  - by left.
  - by left.
  - right. by exists f, text.
Qed.

End Substitutor.



(** C10. [replace_content_in_file] always returns: whatever is raised
    while the file is classified, read, substituted or written is caught,
    the answer is then false, and the file system is left as it was. *)
Theorem replace_content_in_file_never_raises
    (self : config) (file_magic : option (string → string)) (fs : fsys)
    (file_path : list string) (old_str new_str : string) :
  (∃ changed fs',
     replace_content_in_file self file_magic file_path old_str new_str fs
     = Ok changed fs')
  ∧ (∀ e fs',
       replace_content_try self file_magic file_path old_str new_str fs
       = Raise e fs' →
       fs' = fs
       ∧ replace_content_in_file self file_magic file_path old_str new_str fs
         = Ok false fs).
Proof.
  split.
  - destruct (replace_content_in_file_cases self file_magic file_path
                old_str new_str fs) as [H | (f & text & _ & _ & _ & _ & H)];
      rewrite H; eauto.
  - intros e fs' Hraise.
    destruct (replace_content_try_cases self file_magic file_path
                old_str new_str fs)
      as [H | [[e' H] | (f & text & _ & _ & _ & _ & H)]];
      rewrite H in Hraise; try discriminate.
    injection Hraise as _ <-. split; [done |].
    unfold replace_content_in_file, try_except. by rewrite H.
Qed.

(** The body raises on a file that cannot be written, on a file that
    cannot be read, on a missing file, and without the [file] utility. *)
Example replace_content_try_unwritable :
  replace_content_try (Sample.cfg true) Sample.magic ["dev.conf"] "dev" "prod"
    {[ ["dev.conf"] := Sample.read_only "dev" ]}
  = Raise PermissionError {[ ["dev.conf"] := Sample.read_only "dev" ]}.
Proof. reflexivity. Qed.

Example replace_content_try_unreadable :
  replace_content_try (Sample.cfg true) Sample.magic ["context.bin"] "dev" "prod"
    {[ ["context.bin"] := File (mkFile "dev" false true) ]}
  = Raise PermissionError {[ ["context.bin"] := File (mkFile "dev" false true) ]}.
Proof. reflexivity. Qed.

Example replace_content_try_missing :
  replace_content_try (Sample.cfg true) Sample.magic ["text"; "gone"] "dev" "prod" ∅
  = Raise FileNotFoundError ∅.
Proof. reflexivity. Qed.

Example replace_content_try_no_file_utility :
  replace_content_try (Sample.cfg true) None ["dev.conf"] "dev" "prod"
    {[ ["dev.conf"] := Sample.text "dev" ]}
  = Raise FileNotFoundError {[ ["dev.conf"] := Sample.text "dev" ]}.
Proof. reflexivity. Qed.

Lemma replace_content_in_file_never_raises_witness :
  replace_content_in_file (Sample.cfg true) Sample.magic ["dev.conf"] "dev" "prod"
    {[ ["dev.conf"] := Sample.read_only "dev" ]}
  = Ok false {[ ["dev.conf"] := Sample.read_only "dev" ]}.
Proof.
  apply (proj2 (replace_content_in_file_never_raises (Sample.cfg true)
                  Sample.magic {[ ["dev.conf"] := Sample.read_only "dev" ]}
                  ["dev.conf"] "dev" "prod")
           PermissionError {[ ["dev.conf"] := Sample.read_only "dev" ]}).
  reflexivity.
Defined.

(** ** Reasoning about calls *)

Lemma bind_ok {A B : Type} (m : M A) (k : A → M B) fs a fs' :
  m fs = Ok a fs' → bind m k fs = k a fs'.
Proof. unfold bind. by intros ->. Qed.

Lemma bind_raise {A B : Type} (m : M A) (k : A → M B) fs e fs' :
  m fs = Raise e fs' → bind m k fs = Raise e fs'.
Proof. unfold bind. by intros ->. Qed.

Lemma post_final {A : Type} (Q : fsys → Prop) (o : outcome A) :
  post (λ _, Q) Q o ↔ Q (final o).
Proof. by destruct o. Qed.

Lemma post_mono {A : Type} (P P' : A → fsys → Prop) (Q Q' : fsys → Prop) o :
  (∀ a fs, P a fs → P' a fs) → (∀ fs, Q fs → Q' fs) →
  post P Q o → post P' Q' o.
Proof. destruct o; simpl; auto. Qed.

Lemma post_bind {A B : Type} (P : B → fsys → Prop) (Q : fsys → Prop)
    (m : M A) (k : A → M B) fs :
  post (λ a fs', post P Q (k a fs')) Q (m fs) → post P Q (bind m k fs).
Proof. unfold bind. by destruct (m fs). Qed.

(** The loop rule: an invariant of the body is an invariant of the loop. *)
Lemma post_for_each {A S : Type} (I : S → fsys → Prop) (Q : fsys → Prop)
    (l : list A) (body : A → S → M S) acc fs :
  I acc fs →
  (∀ x acc fs, x ∈ l → I acc fs → post I Q (body x acc fs)) →
  post I Q (for_each l body acc fs).
Proof.
  revert acc fs. induction l as [|x l IH]; intros acc fs HI Hbody; [done |].
  simpl. apply post_bind.
  assert (post I Q (body x acc fs)) as Hx.
  { apply Hbody; [|done]. apply elem_of_cons. by left. }
  destruct (body x acc fs) as [acc' fs'|e fs']; simpl in *; [|done].
  apply IH; [done |].
  intros y acc0 fs0 Hy HI0. apply Hbody; [|done]. apply elem_of_cons. by right.
Qed.

Lemma elem_of_rglob (fs : fsys) (d p : list string) :
  p ∈ rglob fs d ↔ is_Some (fs !! p) ∧ below d p.
Proof.
  unfold rglob. rewrite merge_sort_Permutation, list_elem_of_filter.
  rewrite list_elem_of_fmap. split.
  - intros [Hb [[k n] [-> Hkn%elem_of_map_to_list]]]. eauto.
  - intros [[n Hn] Hb]. split; [done |]. exists (p, n).
    split; [done | by apply elem_of_map_to_list].
Qed.

(** ** The fix engine *)

Section Fix.

Variable self : config.
Variable file_magic : option (string → string).

Lemma rewritten_refl cs old fs : rewritten cs old fs fs.
Proof. intros p. by left. Qed.

(** One more substitution keeps the frame. *)
Lemma rewritten_replace_content_in_file fs0 file_path old_str new_str fs :
  rewritten (case_sensitive self) old_str fs0 fs →
  post (λ _ fs', rewritten (case_sensitive self) old_str fs0 fs')
    (λ _, False)
    (replace_content_in_file self file_magic file_path old_str new_str fs).
Proof.
  intros Hfs.
  destruct (replace_content_in_file_cases self file_magic file_path
              old_str new_str fs)
    as [H | (f & text & Hf & Hr & Hw & Hc%old_present_iff & H)];
    rewrite H; simpl; [done |].
  intros p. destruct (decide (p = file_path)) as [->|Hne].
  - rewrite lookup_insert_eq. right.
    destruct (Hfs file_path) as [Heq | (f0 & text0 & Hf0 & Hc0 & Hk)].
    + exists f, text. rewrite <- Heq, Hf, Hr, Hw. done.
    + rewrite Hk in Hf. injection Hf as <-. simpl in Hr, Hw.
      exists f0, text. by rewrite Hr, Hw.
  - rewrite lookup_insert_ne by done. apply Hfs.
Qed.

Lemma rewritten_replace_content_in_directory fs0 dir_path old_str new_str fs :
  rewritten (case_sensitive self) old_str fs0 fs →
  post (λ _ fs', rewritten (case_sensitive self) old_str fs0 fs')
    (λ _, False)
    (replace_content_in_directory self file_magic dir_path old_str new_str fs).
Proof.
  intros Hfs. unfold replace_content_in_directory. apply post_bind. simpl.
  apply post_for_each; [done |].
  intros file_path count fs1 _ Hfs1. apply post_bind. simpl.
  destruct (_ && _); [|done].
  apply post_bind.
  eapply post_mono;
    [| |by apply rewritten_replace_content_in_file]; [|done].
  by intros [] fs2 Hfs2.
Qed.

Lemma rewritten_fix_item fs0 item old_str new_str acc fs :
  rewritten (case_sensitive self) old_str fs0 fs →
  post (λ _ fs', rewritten (case_sensitive self) old_str fs0 fs')
    (λ _, False)
    (fix_item self file_magic item old_str new_str false acc fs).
Proof.
  intros Hfs. unfold fix_item. apply post_bind. simpl.
  destruct (is_dir fs item); apply post_bind.
  - eapply post_mono;
      [| |by apply rewritten_replace_content_in_directory]; [|done].
    by intros n fs2 Hfs2.
  - eapply post_mono;
      [| |by apply rewritten_replace_content_in_file]; [|done].
    by intros [] fs2 Hfs2.
Qed.

Lemma rewritten_fix_items fs0 items old_str new_str acc fs :
  rewritten (case_sensitive self) old_str fs0 fs →
  post (λ _ fs', rewritten (case_sensitive self) old_str fs0 fs')
    (λ _, False)
    (fix_items self file_magic items old_str new_str false acc fs).
Proof.
  intros Hfs. unfold fix_items. apply post_for_each; [done |].
  intros item n fs1 _ Hfs1. by apply rewritten_fix_item.
Qed.

End Fix.



(** ** The copy engine *)

Lemma wf_ancestor (fs : fsys) (p q : list string) :
  wf fs → is_Some (fs !! (p ++ q)) → q ≠ [] → fs !! p = Some Dir.
Proof.
  intros Hwf [n Hn] Hq. specialize (Hwf _ _ Hn). simpl in Hwf.
  rewrite Forall_forall in Hwf. specialize (Hwf (length p)).
  rewrite take_app_length in Hwf. apply Hwf.
  apply elem_of_seq. rewrite length_app. destruct q; [done |]. simpl. lia.
Qed.

(** In a well-formed file system nothing is below a path that is free. *)
Lemma wf_free_below (fs : fsys) (d p : list string) :
  wf fs → fs !! d = None → d `prefix_of` p → fs !! p = None.
Proof.
  intros Hwf Hd [q ->]. destruct (fs !! (d ++ q)) as [n|] eqn:Hp; [|done].
  destruct q as [|x q]; [by rewrite app_nil_r, Hd in Hp |].
  rewrite (wf_ancestor fs d (x :: q)) in Hd; by eauto.
Qed.

Lemma outside_refl d fs : outside d fs fs.
Proof. split; [done |]. intros p _. by left. Qed.

Lemma outside_trans d fs1 fs2 fs3 :
  outside d fs1 fs2 → outside d fs2 fs3 → outside d fs1 fs3.
Proof.
  intros [G12 H12] [G23 H23]. split; [by auto |]. intros p Hp.
  destruct (H12 p Hp) as [E12 | [N1 D2]], (H23 p Hp) as [E23 | [N2 D3]].
  - left. congruence.
  - right. split; congruence.
  - right. split; congruence.
  - congruence.
Qed.

Lemma outside_kept d fs fs' :
  wf fs → fs !! d = None → outside d fs fs' → kept fs fs'.
Proof.
  intros Hwf Hd [_ Hout] p [n Hn].
  destruct (decide (d `prefix_of` p)) as [Hdp|Hdp].
  - rewrite (wf_free_below fs d p) in Hn; done.
  - destruct (Hout p Hdp) as [? | [? _]]; congruence.
Qed.

Lemma outside_insert d fs p n :
  d `prefix_of` p → outside d fs (<[p := n]> fs).
Proof.
  intros Hdp. split.
  - intros q Hq. apply lookup_insert_is_Some.
    destruct (decide (p = q)); auto.
  - intros q Hq. left. apply lookup_insert_ne. by intros ->.
Qed.

Lemma outside_makedirs_upto d k d' fs :
  post (λ _ fs', outside d fs fs') (λ fs', outside d fs fs')
    (makedirs_upto k d' fs).
Proof.
  revert fs. induction k as [|k IH]; intros fs; [apply outside_refl |].
  cbn [makedirs_upto]. apply post_bind.
  eapply post_mono; [| |apply IH]; [|done].
  intros [] fs1 H1. apply post_bind. simpl.
  destruct (fs1 !! take (S k) d') as [[f|]|] eqn:Hk; simpl; [done..|].
  eapply outside_trans; [done |]. split.
  - intros q Hq. apply lookup_insert_is_Some.
    destruct (decide (take (S k) d' = q)); auto.
  - intros p Hp. destruct (decide (p = take (S k) d')) as [->|Hne].
    + rewrite lookup_insert_eq. by right.
    + rewrite lookup_insert_ne by done. by left.
Qed.

Lemma outside_copy2 src dst fs :
  post (λ _ fs', outside dst fs fs') (λ fs', outside dst fs fs')
    (copy2 src dst fs).
Proof.
  unfold copy2. destruct (fs !! src) as [[f|]|]; simpl;
    try apply outside_refl.
  destruct (negb (readable f)); simpl; [apply outside_refl |].
  destruct (is_dir fs (parent dst)); simpl; [|apply outside_refl].
  by apply outside_insert.
Qed.

Lemma outside_copytree src dst fs :
  post (λ _ fs', outside dst fs fs') (λ fs', outside dst fs fs')
    (copytree src dst fs).
Proof.
  unfold copytree. apply post_bind. simpl.
  destruct (fs !! src) as [[f|]|]; simpl; try apply outside_refl.
  apply post_bind.
  eapply post_mono; [| |apply outside_makedirs_upto]; [|done].
  intros [] fs1 H1. apply post_bind. simpl. apply post_bind. simpl.
  set (copied := _ <$> _).
  assert (outside dst fs (list_to_map copied ∪ fs1)) as H2.
  { eapply outside_trans; [done |]. split.
    - intros p Hp. apply lookup_union_is_Some. by right.
    - intros p Hp. left.
      apply lookup_union_r, not_elem_of_list_to_map.
      intros [[k n] [-> Hkn]]%list_elem_of_fmap. apply Hp.
      subst copied. apply list_elem_of_fmap in Hkn as [[k' n'] [[= -> ->] _]].
      by apply prefix_app_r. }
  by destruct (forallb _ _).
Qed.

Section Copy.

Variable self : config.
Variable file_magic : option (string → string).

Lemma outside_replace_content_in_file d file_path old_str new_str fs :
  d `prefix_of` file_path →
  post (λ _ fs', outside d fs fs') (λ _, False)
    (replace_content_in_file self file_magic file_path old_str new_str fs).
Proof.
  intros Hd.
  destruct (replace_content_in_file_cases self file_magic file_path
              old_str new_str fs) as [H | (f & text & _ & _ & _ & _ & H)];
    rewrite H; simpl; [apply outside_refl | by apply outside_insert].
Qed.

Lemma outside_replace_content_in_directory dir_path old_str new_str fs :
  post (λ _ fs', outside dir_path fs fs') (λ _, False)
    (replace_content_in_directory self file_magic dir_path old_str new_str fs).
Proof.
  unfold replace_content_in_directory. apply post_bind. simpl.
  apply post_for_each; [apply outside_refl |].
  intros file_path count fs1 [_ [Hpre _]]%elem_of_rglob Hfs1.
  apply post_bind. simpl. destruct (_ && _); [|done].
  apply post_bind.
  eapply post_mono;
    [| |by apply (outside_replace_content_in_file dir_path)]; [|done].
  intros [] fs2 Hfs2; simpl; by eapply outside_trans.
Qed.

(** The paths of [create_renamed_copy], one by one. *)
Lemma create_renamed_copy_cases item old_str new_str dry_run fs :
  let call :=
    create_renamed_copy self file_magic item old_str new_str dry_run fs in
  match new_name_of self (name item) old_str new_str with
  | None => call = Raise ReError fs
  | Some new_name =>
      let new_item := joinpath (parent item) new_name in
      if decide (new_name = name item) then call = Ok false fs
      else if path_exists fs new_item then call = Ok false fs
      else if dry_run then call = Ok true fs
      else post (λ created fs', created = true ∧ outside new_item fs fs')
             (λ fs', outside new_item fs fs') call
  end.
Proof.
  unfold create_renamed_copy. unfold_M.
  destruct (new_name_of _ _ _ _) as [new_name|]; simpl; [|done].
  destruct (decide (new_name = name item)) as [|Hne]; [done |].
  destruct (path_exists fs _); [done |].
  destruct dry_run; [done |].
  set (new_item := joinpath (parent item) new_name).
  destruct (is_dir fs item).
  - pose proof (outside_copytree item new_item fs) as H1.
    destruct (copytree item new_item fs) as [[] fs1|e fs1]; simpl in *;
      [|done].
    pose proof (outside_replace_content_in_directory new_item
                  old_str new_str fs1) as H2.
    destruct (replace_content_in_directory _ _ _ _ _ fs1) as [n fs2|];
      simpl in *; [|done].
    split; [done | by eapply outside_trans].
  - pose proof (outside_copy2 item new_item fs) as H1.
    destruct (copy2 item new_item fs) as [[] fs1|e fs1]; simpl in *; [|done].
    pose proof (outside_replace_content_in_file new_item new_item
                  old_str new_str fs1 (reflexivity _)) as H2.
    destruct (replace_content_in_file _ _ _ _ _ fs1) as [b fs2|];
      simpl in *; [|done].
    split; [done | by eapply outside_trans].
Qed.

End Copy.

(** C8. When the transformed name is the name the entry has, no copy is
    made: [create_renamed_copy] returns false on an unchanged file system,
    and the loop of [process_repository] does not count the entry. *)
Theorem create_renamed_copy_skips_unchanged_name
    (self : config) (file_magic : option (string → string))
    (item : list string) (rest : list (list string))
    (old_str new_str : string) (dry_run : bool) (items_copied : Z)
    (fs : fsys) :
  new_name_of self (name item) old_str new_str = Some (name item) →
  create_renamed_copy self file_magic item old_str new_str dry_run fs
  = Ok false fs
  ∧ copy_items self file_magic (item :: rest) old_str new_str dry_run
      items_copied fs
    = copy_items self file_magic rest old_str new_str dry_run items_copied fs.
Proof.
  intros Hname.
  pose proof (create_renamed_copy_cases self file_magic item old_str new_str
                dry_run fs) as H.
  simpl in H. rewrite Hname in H. rewrite decide_True in H by done.
  split; [done |].
  unfold copy_items. cbn [for_each]. unfold bind at 1 2. by rewrite H.
Qed.

Lemma create_renamed_copy_skips_unchanged_name_witness :
  create_renamed_copy (Sample.cfg false) Sample.magic ["repo"; "README.md"]
    "dev" "prod" false
    {[ ["repo"; "README.md"] := Sample.text "dev notes" ]}
  = Ok false {[ ["repo"; "README.md"] := Sample.text "dev notes" ]}.
Proof.
  apply (create_renamed_copy_skips_unchanged_name (Sample.cfg false)
           Sample.magic ["repo"; "README.md"] [] "dev" "prod" false 0).
  reflexivity.
Defined.

(** C2. When an entry already has the transformed name, in the directory
    of the item, [create_renamed_copy] returns false and changes nothing;
    and however a call ends, in a well-formed file system every entry that
    existed before it is afterwards as it was: the copy engine overwrites
    nothing. *)
Theorem create_renamed_copy_non_destructive
    (self : config) (file_magic : option (string → string))
    (item : list string) (old_str new_str : string) (dry_run : bool)
    (fs : fsys) :
  (∀ new_name,
     new_name_of self (name item) old_str new_str = Some new_name →
     new_name ≠ name item →
     is_Some (fs !! joinpath (parent item) new_name) →
     create_renamed_copy self file_magic item old_str new_str dry_run fs
     = Ok false fs)
  ∧ (wf fs →
     kept fs
       (final (create_renamed_copy self file_magic item old_str new_str
                 dry_run fs))).
Proof.
  pose proof (create_renamed_copy_cases self file_magic item old_str new_str
                dry_run fs) as H.
  simpl in H. split.
  - intros new_name Hname Hne Hex. rewrite Hname in H.
    rewrite decide_False in H by done.
    unfold path_exists in H. by rewrite bool_decide_eq_true_2 in H.
  - intros Hwf.
    destruct (new_name_of _ _ _ _) as [new_name|]; [|by rewrite H].
    destruct (decide _) as [|Hne]; [by rewrite H |].
    destruct (path_exists _ _) eqn:Hex; [by rewrite H |].
    destruct dry_run; [by rewrite H |].
    apply bool_decide_eq_false in Hex.
    assert (fs !! joinpath (parent item) new_name = None) as Hfree.
    { by apply eq_None_not_Some. }
    destruct (create_renamed_copy _ _ _ _ _ _ _) as [b fs'|e fs'];
      simpl in *.
    + destruct H as [_ H]. by eapply outside_kept.
    + by eapply outside_kept.
Qed.

Lemma create_renamed_copy_non_destructive_witness :
  create_renamed_copy (Sample.cfg true) Sample.magic
    ["repo"; "dev-service.yaml"] "dev" "prod" false Sample.taken
  = Ok false Sample.taken
  ∧ kept Sample.tree
      (final (create_renamed_copy (Sample.cfg true) Sample.magic
                ["repo"; "dev"] "dev" "prod" false Sample.tree)).
Proof.
  split.
  - refine (proj1 (create_renamed_copy_non_destructive (Sample.cfg true)
                     Sample.magic ["repo"; "dev-service.yaml"] "dev" "prod"
                     false Sample.taken) "prod-service.yaml" _ _ _).
    + reflexivity.
    + discriminate.
    + eexists. reflexivity.
  - apply (proj2 (create_renamed_copy_non_destructive (Sample.cfg true)
                    Sample.magic ["repo"; "dev"] "dev" "prod" false
                    Sample.tree)).
    apply (bool_decide_unpack _). vm_compute. exact I.
Defined.

(** C6. When [create_renamed_copy], not in dry run, has made a copy, every
    entry at or below the original is as it was, and every file that is new
    or has another text is at or below the new path. *)
Theorem create_renamed_copy_preserves_original
    (self : config) (file_magic : option (string → string))
    (item : list string) (old_str new_str : string) (fs fs' : fsys) :
  wf fs →
  create_renamed_copy self file_magic item old_str new_str false fs
  = Ok true fs' →
  ∃ new_name,
    new_name_of self (name item) old_str new_str = Some new_name
    ∧ (∀ p, item `prefix_of` p → is_Some (fs !! p) → fs' !! p = fs !! p)
    ∧ (∀ p f, fs' !! p = Some (File f) →
         fs !! p = Some (File f)
         ∨ joinpath (parent item) new_name `prefix_of` p).
Proof.
  intros Hwf Hcall.
  pose proof (create_renamed_copy_cases self file_magic item old_str new_str
                false fs) as H.
  simpl in H. rewrite Hcall in H.
  destruct (new_name_of _ _ _ _) as [new_name|]; [|done].
  destruct (decide _) as [|Hne]; [done |].
  destruct (path_exists _ _) eqn:Hex; [done |].
  simpl in H. destruct H as [_ Hout].
  apply bool_decide_eq_false in Hex.
  assert (fs !! joinpath (parent item) new_name = None) as Hfree.
  { by apply eq_None_not_Some. }
  exists new_name. split; [done |]. split.
  - intros p _ Hp. by eapply outside_kept.
  - intros p f Hf.
    destruct (decide (joinpath (parent item) new_name `prefix_of` p))
      as [Hpre|Hpre]; [by right |].
    left. destruct Hout as [_ Hout].
    destruct (Hout p Hpre) as [? | [_ ?]]; congruence.
Qed.

Lemma create_renamed_copy_preserves_original_witness :
  ∃ new_name,
    new_name_of (Sample.cfg true) "dev" "dev" "prod" = Some new_name
    ∧ (∀ p, ["repo"; "dev"] `prefix_of` p → is_Some (Sample.tree !! p) →
         Sample.tree_copied !! p = Sample.tree !! p)
    ∧ (∀ p f, Sample.tree_copied !! p = Some (File f) →
         Sample.tree !! p = Some (File f)
         ∨ joinpath ["repo"] new_name `prefix_of` p).
Proof.
  apply (create_renamed_copy_preserves_original (Sample.cfg true) Sample.magic
           ["repo"; "dev"] "dev" "prod" Sample.tree Sample.tree_copied).
  - apply (bool_decide_unpack _). vm_compute. exact I.
  - vm_compute. reflexivity.
Defined.

(** ** Repository names *)

Lemma rstrip_spec (chars s : string) :
  ∃ suffix,
    s = Str.rstrip chars s +:+ suffix
    ∧ Str.all_in chars suffix = true
    ∧ ∀ c, Str.last_char (Str.rstrip chars s) = Some c → Str.mem c chars = false.
Proof.
  induction s as [|c s (suffix & Hs & Hall & Hlast)].
  - by exists "".
  - cbn [Str.rstrip]. destruct (Str.rstrip chars s) as [|d r] eqn:Hr.
    + rewrite StrFacts.app_nil_l in Hs. subst suffix.
      destruct (Str.mem c chars) eqn:Hc.
      * exists (String c s). simpl. by rewrite Hc, Hall.
      * exists s. repeat split; [done |]. intros c' [= <-]. done.
    + exists suffix. rewrite StrFacts.app_cons, <- Hs. by repeat split.
Qed.

(** C9. For an input that is not a URL, the repository name is the input
    without its trailing run of the characters [.], [g], [i], [t] (not
    without a [.git] suffix), and the URL is built from that name; so
    [audit], which has no [.git] suffix, is named [aud]. *)
Theorem short_name_strips_a_character_set
    (self : config) (repo_input : string) :
  is_url repo_input = false →
  (∃ suffix,
     repo_input = get_repo_name repo_input +:+ suffix
     ∧ Str.all_in ".git" suffix = true
     ∧ ∀ c, Str.last_char (get_repo_name repo_input) = Some c →
            Str.mem c ".git" = false)
  ∧ (∃ base,
       construct_repo_url self repo_input
       = base +:+ "/" +:+ get_repo_name repo_input +:+ ".git")
  ∧ Str.endswith ".git" "audit" = false
  ∧ get_repo_name "audit" = "aud".
Proof.
  intros Hurl. unfold get_repo_name, construct_repo_url. rewrite Hurl.
  split; [apply rstrip_spec |]. split; [|done].
  repeat case_decide; try destruct (Str.contains _ _).
  - eexists. by rewrite <- !StrFacts.app_assoc.
  - eexists. by rewrite <- !StrFacts.app_assoc.
  - by eexists.
  - by eexists.
Qed.

Lemma short_name_strips_a_character_set_witness :
  (∃ suffix,
     "audit" = get_repo_name "audit" +:+ suffix
     ∧ Str.all_in ".git" suffix = true
     ∧ ∀ c, Str.last_char (get_repo_name "audit") = Some c →
            Str.mem c ".git" = false)
  ∧ (∃ base,
       construct_repo_url (Sample.cfg true) "audit"
       = base +:+ "/" +:+ get_repo_name "audit" +:+ ".git")
  ∧ Str.endswith ".git" "audit" = false
  ∧ get_repo_name "audit" = "aud".
Proof.
  apply (short_name_strips_a_character_set (Sample.cfg true) "audit").
  reflexivity.
Defined.

Example construct_repo_url_audit :
  construct_repo_url (Sample.cfg true) "audit"
  = "https://git.example.com/acme/aud.git".
Proof. reflexivity. Qed.

Example get_repo_name_of_url :
  get_repo_name "https://git.example.com/acme/audit.git" = "audit".
Proof. reflexivity. Qed.

(** ** The run summary *)

Section Summary.

Variable self : config.
Variable file_magic : option (string → string).
Variable git_clone : nat → string → list string → fsys → option fsys.
Variable checkout_base_branch : list string → string → M bool.
Variable create_or_checkout_branch : list string → string → M bool.
Variable git_add_commit_push : list string → string → string → M bool.

(** Both modes answer 0 when the clone fails. *)
Lemma process_repository_clone_failed repo_input dry_run push fs fs' :
  clone_repository git_clone (construct_repo_url self repo_input)
    (joinpath (work_dir self) (get_repo_name repo_input))
    (get_repo_name repo_input) fs = Ok false fs' →
  process_repository self file_magic git_clone checkout_base_branch
    create_or_checkout_branch git_add_commit_push repo_input dry_run push fs
  = Ok 0 fs'
  ∧ process_repository_fix_mode self file_magic git_clone checkout_base_branch
      create_or_checkout_branch git_add_commit_push repo_input dry_run push fs
    = Ok 0 fs'.
Proof.
  intros Hclone. unfold process_repository, process_repository_fix_mode.
  by rewrite !(bind_ok _ _ _ _ _ Hclone).
Qed.

(** So the loop of [run] counts a repository whose clone failed among the
    successful ones. *)
Lemma run_line_clone_failed dry_run push line counts fs fs' :
  Str.strip line ≠ "" →
  Str.startswith "#" (Str.strip line) = false →
  clone_repository git_clone (construct_repo_url self (Str.strip line))
    (joinpath (work_dir self) (get_repo_name (Str.strip line)))
    (get_repo_name (Str.strip line)) fs = Ok false fs' →
  run_line self file_magic git_clone checkout_base_branch
    create_or_checkout_branch git_add_commit_push dry_run push line counts fs
  = Ok (counts.1.1, counts.1.2 + 1, counts.2 + 1) fs'.
Proof.
  intros Hline Hhash Hclone. destruct counts as [[items ok] total].
  unfold run_line. rewrite bool_decide_eq_false_2, Hhash by done. simpl.
  destruct (process_repository_clone_failed (Str.strip line) dry_run push
              fs fs' Hclone) as [Hcopy Hfix].
  destruct (fix_mode self);
    [rewrite (bind_ok _ _ _ _ _ Hfix) | rewrite (bind_ok _ _ _ _ _ Hcopy)];
    simpl; unfold ret; by rewrite Z.add_0_r.
Qed.

End Summary.

(** C3 (not met by the code). The claim excludes a repository whose clone
    fails from the tally of successes.  Here the only repository of the list
    cannot be cloned: [run] reports 1 successful repository out of 1 and
    exit code 0, because [process_repository] answers 0 for a failed clone
    and [run] takes every count that is not negative as a success. *)
Theorem run_counts_failed_clone_as_success :
  run (Sample.cfg true) Sample.magic Sample.git_clone_down Sample.git_idle
    Sample.git_idle Sample.git_push_idle
    (Some ["# tools"; ""; "acme-tools"]) false false {[ [] := Dir ]}
  = Ok (mkSummary 0 1 1 0) (<[ ["repos_temp"] := Dir ]> {[ [] := Dir ]}).
Proof. vm_compute. reflexivity. Qed.

(** ** Replacement templates *)

Lemma parse_template_plain (t : string) :
  Str.mem "\" t = false →
  ∃ pieces,
    Re.parse_template None t = Some pieces ∧ ∀ m, Re.expand pieces m = t.
Proof.
  induction t as [|c t IH]; [by exists [] |].
  cbn [Str.mem Re.parse_template]. rewrite Ascii.eqb_sym.
  intros [Hc Ht]%orb_false_iff. rewrite Hc. simpl.
  destruct (IH Ht) as (pieces & -> & Hexp).
  exists (Re.Lit c :: pieces). split; [done |].
  intros m. simpl. by rewrite Hexp.
Qed.

(** A replacement with no backslash is inserted as it is written. *)
Lemma sub_plain (old_str new_str text : string) :
  Str.mem "\" new_str = false →
  ∃ emit,
    Re.sub old_str new_str text
    = Some (Str.sub_all Str.eq_nocase old_str emit text)
    ∧ ∀ m, emit m = new_str.
Proof.
  intros (pieces & Hp & Hexp)%parse_template_plain.
  exists (Re.expand pieces). unfold Re.sub. by rewrite Hp.
Qed.

(** C4 (not met by the code). The claim has the replacement inserted as
    configured.  With case sensitivity off the replacement goes through
    [pattern.sub], which reads it as a template: in [live\new] the
    backslash and the [n] become a line feed, where the case-sensitive
    path writes the replacement as it is; and a replacement such as
    [pr\od] makes [create_renamed_copy] raise [re.error]. *)
Theorem case_insensitive_replacement_is_a_template :
  replace_content_in_file (Sample.cfg false) Sample.magic
    ["repo"; "prod-service.yaml"] "dev" "live\new" Sample.stale
  = Ok true
      (<[ ["repo"; "prod-service.yaml"]
          := Sample.text ("live" +:+ newline +:+ "ew endpoint") ]> Sample.stale)
  ∧ replace_content_in_file (Sample.cfg true) Sample.magic
      ["repo"; "prod-service.yaml"] "dev" "live\new" Sample.stale
    = Ok true
        (<[ ["repo"; "prod-service.yaml"]
            := Sample.text "live\new endpoint" ]> Sample.stale)
  ∧ create_renamed_copy (Sample.cfg false) Sample.magic
      ["repo"; "dev-service.yaml"] "dev" "pr\od" false Sample.taken
    = Raise ReError Sample.taken.
Proof. repeat split; vm_compute; reflexivity. Qed.

(** ** Dry run *)

Section DryRun.

Variable self : config.
Variable file_magic : option (string → string).

Lemma create_renamed_copy_dry item old_str new_str fs :
  post (λ _ fs', fs' = fs) (λ fs', fs' = fs)
    (create_renamed_copy self file_magic item old_str new_str true fs).
Proof.
  pose proof (create_renamed_copy_cases self file_magic item old_str new_str
                true fs) as H.
  simpl in H. destruct (new_name_of _ _ _ _); [|by rewrite H].
  destruct (decide _); [by rewrite H |].
  destruct (path_exists _ _); by rewrite H.
Qed.

Lemma copy_items_dry items old_str new_str acc fs :
  post (λ _ fs', fs' = fs) (λ fs', fs' = fs)
    (copy_items self file_magic items old_str new_str true acc fs).
Proof.
  unfold copy_items. apply post_for_each; [done |].
  intros item n fs1 _ ->. apply post_bind.
  eapply post_mono; [| |apply create_renamed_copy_dry]; [|done].
  by intros created fs2 ->.
Qed.

Lemma copy_pairs_dry repo_dir pairs fs :
  post (λ _ fs', fs' = fs) (λ fs', fs' = fs)
    (copy_pairs self file_magic repo_dir pairs true fs).
Proof.
  unfold copy_pairs. apply post_for_each; [done |].
  intros [old_str new_str] n fs1 _ ->. apply post_bind. simpl.
  apply copy_items_dry.
Qed.

(** In dry run the fix engine reads and never raises. *)
Lemma fix_item_dry item old_str new_str acc fs :
  ∃ acc',
    fix_item self file_magic item old_str new_str true acc fs = Ok acc' fs
    ∧ acc ≤ acc' ≤ acc + 1
    ∧ (is_dir fs item = true → acc' = acc + 1)
    ∧ (∀ f, fs !! item = Some (File f) → readable f = true →
            Str.contains old_str (content f) = true → acc' = acc + 1).
Proof.
  unfold fix_item, read_text. unfold_M. unfold is_dir.
  case_bool_decide as Hdir; simpl.
  - exists (acc + 1). rewrite Hdir. repeat split; (lia || done).
  - destruct (fs !! item) as [[f|]|] eqn:Hf; [|done|].
    + destruct (readable f) eqn:Hr.
      * destruct (Str.contains old_str (content f)) eqn:Hc.
        -- exists (acc + 1). repeat split; (lia || done).
        -- exists acc. repeat split; try (lia || done).
           intros f' [= <-]. congruence.
      * exists acc. repeat split; try (lia || done).
        intros f' [= <-]. congruence.
    + exists acc. repeat split; try (lia || done).
Qed.

Lemma fix_items_dry items old_str new_str acc fs :
  post (λ _ fs', fs' = fs) (λ _, False)
    (fix_items self file_magic items old_str new_str true acc fs).
Proof.
  unfold fix_items. apply post_for_each; [done |].
  intros item n fs1 _ ->.
  by destruct (fix_item_dry item old_str new_str n fs) as (n' & -> & _).
Qed.

Lemma fix_pairs_dry repo_dir pairs fs :
  post (λ _ fs', fs' = fs) (λ _, False)
    (fix_pairs self file_magic repo_dir pairs true fs).
Proof.
  unfold fix_pairs. apply post_for_each; [done |].
  intros [old_str new_str] n fs1 _ ->. apply post_bind. simpl.
  apply fix_items_dry.
Qed.

(** With one pair, a pass is the loop over the items found at the start. *)
Lemma copy_pairs_single repo_dir old_str new_str dry_run fs :
  copy_pairs self file_magic repo_dir [(old_str, new_str)] dry_run fs
  = copy_items self file_magic
      (find_items_with_pattern self fs repo_dir old_str)
      old_str new_str dry_run 0 fs.
Proof.
  unfold copy_pairs. simpl. unfold_M. by destruct (copy_items _ _ _ _ _ _ _ _).
Qed.

Lemma fix_pairs_single repo_dir old_str new_str dry_run fs :
  fix_pairs self file_magic repo_dir [(old_str, new_str)] dry_run fs
  = fix_items self file_magic
      (find_items_with_pattern self fs repo_dir new_str)
      old_str new_str dry_run 0 fs.
Proof.
  unfold fix_pairs. simpl. unfold_M. by destruct (fix_items _ _ _ _ _ _ _ _).
Qed.

Lemma copy_items_cons item rest old_str new_str dry_run acc fs :
  copy_items self file_magic (item :: rest) old_str new_str dry_run acc fs
  = bind (create_renamed_copy self file_magic item old_str new_str dry_run)
      (λ created,
         copy_items self file_magic rest old_str new_str dry_run
           (if created then acc + 1 else acc))
      fs.
Proof.
  unfold copy_items. simpl. unfold_M.
  by destruct (create_renamed_copy _ _ _ _ _ _ _).
Qed.

(** What a copy pass counts, a dry run on the file system of its start
    counts too. *)
Lemma copy_items_bound items old_str new_str n m fs0 fs n' fs' :
  (∀ p, is_Some (fs0 !! p) → is_Some (fs !! p)) →
  copy_items self file_magic items old_str new_str false n fs = Ok n' fs' →
  ∃ m',
    copy_items self file_magic items old_str new_str true m fs0 = Ok m' fs0
    ∧ n' - n ≤ m' - m.
Proof.
  revert n m fs. induction items as [|item rest IH]; intros n m fs Hgrow Hrun.
  { injection Hrun as <- <-. exists m. split; [done | lia]. }
  rewrite copy_items_cons in Hrun. rewrite copy_items_cons.
  pose proof (create_renamed_copy_cases self file_magic item old_str new_str
                false fs) as Hreal.
  pose proof (create_renamed_copy_cases self file_magic item old_str new_str
                true fs0) as Hdry.
  simpl in Hreal, Hdry.
  destruct (new_name_of _ _ _ _) as [new_name|];
    [|by rewrite (bind_raise _ _ _ _ _ Hreal) in Hrun].
  destruct (decide _) as [|Hne].
  { rewrite (bind_ok _ _ _ _ _ Hreal) in Hrun.
    rewrite (bind_ok _ _ _ _ _ Hdry). by apply (IH n m fs). }
  destruct (path_exists fs _) eqn:Hex.
  { rewrite (bind_ok _ _ _ _ _ Hreal) in Hrun.
    destruct (path_exists fs0 _); rewrite (bind_ok _ _ _ _ _ Hdry).
    - by apply (IH n m fs).
    - destruct (IH n (m + 1) fs Hgrow Hrun) as (m' & ? & ?).
      exists m'. split; [done | lia]. }
  assert (path_exists fs0 (joinpath (parent item) new_name) = false) as Hex0.
  { unfold path_exists in *. apply bool_decide_eq_false.
    apply bool_decide_eq_false in Hex. auto. }
  rewrite Hex0 in Hdry. rewrite (bind_ok _ _ _ _ _ Hdry).
  destruct (create_renamed_copy _ _ _ _ _ false fs) as [created fs1|e fs1]
    eqn:Hcall; [|by rewrite (bind_raise _ _ _ _ _ Hcall) in Hrun].
  rewrite (bind_ok _ _ _ _ _ Hcall) in Hrun.
  simpl in Hreal. destruct Hreal as [-> [Hgrow1 _]].
  destruct (IH (n + 1) (m + 1) fs1) as (m' & ? & ?); [by auto | done |].
  exists m'. split; [done | lia].
Qed.

Lemma rewritten_is_dir cs old_str fs0 fs p :
  rewritten cs old_str fs0 fs → is_dir fs p = is_dir fs0 p.
Proof.
  intros H. unfold is_dir.
  destruct (H p) as [-> | (f & text & Hf & _ & ->)]; [done |].
  rewrite Hf. by rewrite !bool_decide_eq_false_2.
Qed.

(** One item of a fix pass, under exact matching, against the dry run on
    the file system of the start of the pass. *)
Lemma fix_item_bound item old_str new_str n m fs0 fs :
  case_sensitive self = true →
  rewritten true old_str fs0 fs →
  ∃ n1 fs1 m1,
    fix_item self file_magic item old_str new_str false n fs = Ok n1 fs1
    ∧ rewritten true old_str fs0 fs1
    ∧ fix_item self file_magic item old_str new_str true m fs0 = Ok m1 fs0
    ∧ n1 - n ≤ m1 - m.
Proof.
  intros Hcs Hfs.
  destruct (fix_item_dry item old_str new_str m fs0)
    as (m1 & Hdry & Hm & Hdir & Hfile).
  pose proof (rewritten_fix_item self file_magic fs0 item old_str new_str
                n fs) as Hkeep.
  rewrite Hcs in Hkeep. specialize (Hkeep Hfs).
  destruct (fix_item _ _ _ _ _ false n fs) as [n1 fs1|] eqn:Hreal; [|done].
  simpl in Hkeep. exists n1, fs1, m1. repeat split; try done.
  revert Hreal. unfold fix_item. unfold bind at 1. simpl.
  rewrite (rewritten_is_dir _ _ _ _ _ Hfs).
  destruct (is_dir fs0 item) eqn:Hd.
  - rewrite (Hdir eq_refl). unfold bind, ret.
    destruct (replace_content_in_directory _ _ _ _ _ _) as [count ?|];
      [|done].
    intros [= <- _]. destruct (0 <? count); lia.
  - destruct (replace_content_in_file_cases self file_magic item
                old_str new_str fs)
      as [H | (f & text & Hf & Hr & Hw & Hc & H)];
      rewrite (bind_ok _ _ _ _ _ H); unfold ret; intros [= <- _]; [lia |].
    rewrite Hcs in Hc. simpl in Hc.
    destruct (Hfs item) as [Heq | (f0 & text0 & Hf0 & Hc0 & Hk)].
    + rewrite (Hfile f); [lia | congruence | done | done].
    + rewrite Hk in Hf. injection Hf as <-. simpl in Hr.
      rewrite (Hfile f0); [lia | done | done |].
      by apply (old_present_iff true).
Qed.

Lemma fix_items_bound items old_str new_str n m fs0 fs n' fs' :
  case_sensitive self = true →
  rewritten true old_str fs0 fs →
  fix_items self file_magic items old_str new_str false n fs = Ok n' fs' →
  ∃ m',
    fix_items self file_magic items old_str new_str true m fs0 = Ok m' fs0
    ∧ n' - n ≤ m' - m.
Proof.
  intros Hcs. revert n m fs.
  induction items as [|item rest IH]; intros n m fs Hfs Hrun.
  { injection Hrun as <- <-. exists m. split; [done | lia]. }
  destruct (fix_item_bound item old_str new_str n m fs0 fs Hcs Hfs)
    as (n1 & fs1 & m1 & Hreal & Hfs1 & Hdry & Hle).
  unfold fix_items in *. cbn [for_each] in *.
  rewrite (bind_ok _ _ _ _ _ Hreal) in Hrun.
  rewrite (bind_ok _ _ _ _ _ Hdry).
  destruct (IH n1 m1 fs1 Hfs1 Hrun) as (m' & ? & ?).
  exists m'. split; [done | lia].
Qed.

End DryRun.

(** C1, as stated, fails: the dry-run count and the count of the pass
    differ.  In fix mode a
    matching directory is counted by the dry run though no file in it
    changes, and in normal mode two items that get the same new name are
    both counted by the dry run though only one copy is made. *)
Lemma dry_run_count_differs :
  fix_pairs (Sample.cfg true) Sample.magic ["repo"] [("dev", "prod")] true
    Sample.fixed = Ok 1 Sample.fixed
  ∧ fix_pairs (Sample.cfg true) Sample.magic ["repo"] [("dev", "prod")] false
      Sample.fixed = Ok 0 Sample.fixed
  ∧ copy_pairs (Sample.cfg true) Sample.magic ["repo"] [("a", "b")] true
      Sample.clash = Ok 2 Sample.clash
  ∧ copy_pairs (Sample.cfg true) Sample.magic ["repo"] [("a", "b")] false
      Sample.clash
    = Ok 1 (<[ ["repo"; "bb"] := Sample.text "first" ]> Sample.clash).
Proof. repeat split; vm_compute; reflexivity. Qed.

(** With case sensitivity off, the dry run of fix mode still tests the
    text of a file with an exact match: it misses a file that the pass
    fixes. *)
Example fix_dry_run_tests_files_exactly :
  fix_pairs (Sample.cfg false) Sample.magic ["repo"] [("DEV", "prod")] true
    Sample.stale = Ok 0 Sample.stale
  ∧ fix_pairs (Sample.cfg false) Sample.magic ["repo"] [("DEV", "prod")] false
      Sample.stale
    = Ok 1 (<[ ["repo"; "prod-service.yaml"] := Sample.text "prod endpoint" ]>
              Sample.stale).
Proof. split; vm_compute; reflexivity. Qed.

(** C1 (amended). A dry run leaves the file system as it is, in normal
    mode and in fix mode.  [create_renamed_copy] gives, on one file system,
    the same answer with and without dry run.  For one replacement pair, the
    count of a pass is at most the count of the dry run on the same input:
    in normal mode, and in fix mode under case-sensitive matching. *)
Theorem dry_run_is_pure_and_bounds_the_count
    (self : config) (file_magic : option (string → string))
    (repo_dir : list string) (old_str new_str : string) (fs : fsys) :
  (∀ pairs, final (copy_pairs self file_magic repo_dir pairs true fs) = fs)
  ∧ (∀ pairs, ∃ n, fix_pairs self file_magic repo_dir pairs true fs = Ok n fs)
  ∧ (∀ item created fs',
       create_renamed_copy self file_magic item old_str new_str false fs
       = Ok created fs' →
       create_renamed_copy self file_magic item old_str new_str true fs
       = Ok created fs)
  ∧ (∀ n fs',
       copy_pairs self file_magic repo_dir [(old_str, new_str)] false fs
       = Ok n fs' →
       ∃ m,
         copy_pairs self file_magic repo_dir [(old_str, new_str)] true fs
         = Ok m fs
         ∧ n ≤ m)
  ∧ (case_sensitive self = true →
     ∀ n fs',
       fix_pairs self file_magic repo_dir [(old_str, new_str)] false fs
       = Ok n fs' →
       ∃ m,
         fix_pairs self file_magic repo_dir [(old_str, new_str)] true fs
         = Ok m fs
         ∧ n ≤ m).
Proof.
  split; [|split; [|split; [|split]]].
  - intros pairs. apply (post_final (λ fs', fs' = fs)), copy_pairs_dry.
  - intros pairs.
    pose proof (fix_pairs_dry self file_magic repo_dir pairs fs) as H.
    destruct (fix_pairs _ _ _ _ _ _) as [n fs'|]; simpl in H; [|done].
    exists n. by rewrite H.
  - intros item created fs' Hreal.
    pose proof (create_renamed_copy_cases self file_magic item old_str new_str
                  false fs) as H.
    pose proof (create_renamed_copy_cases self file_magic item old_str new_str
                  true fs) as Hdry.
    simpl in H, Hdry. rewrite Hreal in H.
    destruct (new_name_of _ _ _ _); [|done].
    destruct (decide _); [congruence |].
    destruct (path_exists _ _); [congruence |].
    simpl in H. destruct H as [-> _]. done.
  - intros n fs'. rewrite !copy_pairs_single. intros Hrun.
    destruct (copy_items_bound self file_magic _ old_str new_str 0 0 fs fs
                n fs' (λ _ H, H) Hrun) as (m & ? & ?).
    exists m. split; [done | lia].
  - intros Hcs n fs'. rewrite !fix_pairs_single. intros Hrun.
    destruct (fix_items_bound self file_magic _ old_str new_str 0 0 fs fs
                n fs' Hcs (rewritten_refl _ _ _) Hrun) as (m & ? & ?).
    exists m. split; [done | lia].
Qed.

Lemma dry_run_is_pure_and_bounds_the_count_witness :
  ∃ m,
    copy_pairs (Sample.cfg true) Sample.magic ["repo"] [("a", "b")] true
      Sample.clash = Ok m Sample.clash
    ∧ 1 ≤ m.
Proof.
  apply (proj1 (proj2 (proj2 (proj2
           (dry_run_is_pure_and_bounds_the_count (Sample.cfg true)
              Sample.magic ["repo"] "a" "b" Sample.clash)))) 1
           (<[ ["repo"; "bb"] := Sample.text "first" ]> Sample.clash)).
  vm_compute. reflexivity.
Defined.

(** * Further properties of the script *)

(** ** The pattern matcher *)

(** Matching after [lower()] on both sides is matching up to case, the
    relation the name transformer uses. *)
Lemma starts_lower (p s : string) :
  Str.starts Str.eq_case (Str.lower p) (Str.lower s)
  = Str.starts Str.eq_nocase p s.
Proof.
  revert s. induction p as [|a p IH]; intros [|b s]; simpl; try done.
  by rewrite IH.
Qed.

Lemma find_lower (p s : string) :
  Str.find Str.eq_case (Str.lower p) (Str.lower s)
  = Str.find Str.eq_nocase p s.
Proof.
  induction s as [|c s IH].
  - simpl. f_equal. apply (starts_lower p "").
  - cbn [Str.lower Str.find]. rewrite IH. f_equal.
    apply (starts_lower p (String c s)).
Qed.

Lemma name_matches_iff (self : config) (pattern : string) (item : list string) :
  name_matches self pattern item = true
  ↔ (".git" ∉ item) ∧ occurs (case_sensitive self) pattern (name item).
Proof.
  unfold name_matches. rewrite andb_true_iff, bool_decide_eq_true.
  rewrite <- old_present_iff. unfold old_present, Str.contains, Re.search.
  destruct (case_sensitive self); [done |]. by rewrite find_lower.
Qed.

Lemma NoDup_rglob (fs : fsys) (d : list string) : NoDup (rglob fs d).
Proof.
  unfold rglob. rewrite merge_sort_Permutation.
  apply NoDup_filter, NoDup_fst_map_to_list.
Qed.

Lemma elem_of_find_items_with_pattern
    (self : config) (fs : fsys) (repo_dir : list string) (pattern : string)
    (item : list string) :
  item ∈ find_items_with_pattern self fs repo_dir pattern
  ↔ is_Some (fs !! item)
    ∧ below repo_dir item
    ∧ (".git" ∉ item)
    ∧ occurs (case_sensitive self) pattern (name item).
Proof.
  unfold find_items_with_pattern.
  rewrite list_elem_of_filter, name_matches_iff, elem_of_rglob. tauto.
Qed.



Lemma occurs_case_nocase (old s : string) : occurs true old s → occurs false old s.
Proof.
  intros (pre & m & post & -> & Hm). simpl in Hm. subst m.
  by exists pre, old, post.
Qed.

(** For an ASCII pattern and an entry with an ASCII name, switching case
    sensitivity off loses no match. *)
Theorem find_items_with_pattern_case_monotone
    (exact loose : config) (fs : fsys) (repo_dir : list string)
    (pattern : string) (item : list string) :
  case_sensitive exact = true →
  case_sensitive loose = false →
  ascii_text pattern = true →
  ascii_text (name item) = true →
  item ∈ find_items_with_pattern exact fs repo_dir pattern →
  item ∈ find_items_with_pattern loose fs repo_dir pattern.
Proof.
  intros Hexact Hloose _ _.
  rewrite !elem_of_find_items_with_pattern, Hexact, Hloose. intros (? & ? & ? & ?%occurs_case_nocase). done.
Qed.

Lemma find_items_with_pattern_case_monotone_witness :
  ["repo"; "dev-service.yaml"]
  ∈ find_items_with_pattern (Sample.cfg false) Sample.taken ["repo"] "dev".
Proof.
  apply (find_items_with_pattern_case_monotone (Sample.cfg true)
           (Sample.cfg false) Sample.taken ["repo"] "dev").
  - reflexivity.
  - reflexivity.
  - reflexivity.
  - reflexivity.
  - apply (bool_decide_unpack _). vm_compute. exact I.
Defined.

(** ** The content substitutor, exactly *)

(** When the body of [replace_content_in_file] returns true. *)
Lemma replace_content_try_true
    (self : config) (file_magic : option (string → string))
    (file_path : list string) (old_str new_str : string) (fs fs' : fsys) :
  replace_content_try self file_magic file_path old_str new_str fs
  = Ok true fs'
  ↔ ∃ magic f text,
      file_magic = Some magic
      ∧ Str.contains "text" (Str.lower (file_stdout magic fs file_path)) = true
      ∧ fs !! file_path = Some (File f)
      ∧ readable f = true ∧ writable f = true
      ∧ old_present (case_sensitive self) old_str (content f) = true
      ∧ new_name_of self (content f) old_str new_str = Some text
      ∧ fs' = <[file_path := File (mkFile text true true)]> fs.
Proof.
  unfold replace_content_try, run_file, read_text, write_text, new_name_of,
    old_present.
  unfold_M. split.
  - destruct file_magic as [magic|]; [|done]. simpl.
    destruct (Str.contains "text" _) eqn:Htext; simpl; [|done].
    destruct (fs !! file_path) as [[f|]|] eqn:Hf; [|done..].
    destruct (readable f) eqn:Hr; [|done].
    destruct (case_sensitive self).
    + destruct (Str.contains old_str (content f)) eqn:Hc; simpl; [|done].
      rewrite Hf. destruct (writable f) eqn:Hw; [|done].
      intros [= <-]. exists magic, f, (Str.replace old_str new_str (content f)).
      by rewrite Hr.
    + destruct (Re.search old_str (content f)) eqn:Hc; simpl; [|done].
      destruct (Re.sub old_str new_str (content f)) as [text|] eqn:Hsub;
        simpl; [|done].
      rewrite Hf. destruct (writable f) eqn:Hw; [|done].
      intros [= <-]. exists magic, f, text. by rewrite Hr.
  - intros (magic & f & text & -> & Htext & Hf & Hr & Hw & Hc & Hsub & ->).
    simpl. rewrite Htext. simpl. rewrite Hf, Hr.
    destruct (case_sensitive self).
    + rewrite Hc. simpl. rewrite Hf, Hw, Hr. by injection Hsub as <-.
    + rewrite Hc. simpl. rewrite Hsub. simpl. by rewrite Hf, Hw, Hr.
Qed.

(** For a file that is ASCII text without carriage returns and a plain
    replacement: [replace_content_in_file] returns true exactly when the
    [file] utility is there and its output mentions text, the file can be
    read and written, and [old_str] occurs in its text under the case rule;
    the text is then transformed as a name is, and nothing else changes. *)
Theorem replace_content_in_file_true_iff
    (self : config) (file_magic : option (string → string))
    (file_path : list string) (old_str new_str : string) (fs fs' : fsys) :
  (∀ f, fs !! file_path = Some (File f) → plain_text (content f) = true) →
  plain_replacement (case_sensitive self) old_str new_str = true →
  replace_content_in_file self file_magic file_path old_str new_str fs
  = Ok true fs'
  ↔ ∃ magic f text,
      file_magic = Some magic
      ∧ Str.contains "text" (Str.lower (file_stdout magic fs file_path)) = true
      ∧ fs !! file_path = Some (File f)
      ∧ readable f = true ∧ writable f = true
      ∧ occurs (case_sensitive self) old_str (content f)
      ∧ new_name_of self (content f) old_str new_str = Some text
      ∧ fs' = <[file_path := File (mkFile text (readable f) (writable f))]> fs.
Proof.
  intros _ _.
  assert (replace_content_in_file self file_magic file_path old_str new_str fs
          = Ok true fs'
          ↔ replace_content_try self file_magic file_path old_str new_str fs
            = Ok true fs') as ->.
  { unfold replace_content_in_file, try_except, ret.
    destruct (replace_content_try _ _ _ _ _ _); split; congruence. }
  rewrite replace_content_try_true.
  split; intros (magic & f & text & ? & ? & ? & Hr & Hw & Hc & ? & Hfs);
    exists magic, f, text.
  - rewrite Hr, Hw. repeat split; try done. by apply old_present_iff.
  - rewrite Hr, Hw in Hfs. repeat split; try done. by apply old_present_iff.
Qed.

Lemma replace_content_in_file_true_iff_witness :
  replace_content_in_file (Sample.cfg false) Sample.magic
    ["repo"; "prod-service.yaml"] "DEV" "prod" Sample.stale
  = Ok true
      (<[ ["repo"; "prod-service.yaml"] := Sample.text "prod endpoint" ]>
         Sample.stale)
  ↔ ∃ magic f text,
      Sample.magic = Some magic
      ∧ Str.contains "text"
          (Str.lower
             (file_stdout magic Sample.stale ["repo"; "prod-service.yaml"]))
        = true
      ∧ Sample.stale !! ["repo"; "prod-service.yaml"] = Some (File f)
      ∧ readable f = true ∧ writable f = true
      ∧ occurs false "DEV" (content f)
      ∧ new_name_of (Sample.cfg false) (content f) "DEV" "prod" = Some text
      ∧ <[ ["repo"; "prod-service.yaml"] := Sample.text "prod endpoint" ]>
          Sample.stale
        = <[ ["repo"; "prod-service.yaml"]
             := File (mkFile text (readable f) (writable f)) ]> Sample.stale.
Proof.
  apply (replace_content_in_file_true_iff (Sample.cfg false) Sample.magic
           ["repo"; "prod-service.yaml"] "DEV" "prod" Sample.stale).
  - intros f Hf. vm_compute in Hf. injection Hf as <-. reflexivity.
  - reflexivity.
Defined.

(** ** Counting loops *)

(** A loop whose body adds at most one to the counter adds at most the
    length of the list. *)
Lemma post_for_each_count {A : Type} (I : Z → fsys → Prop) (Q : fsys → Prop)
    (l : list A) (body : A → Z → M Z) acc fs :
  I acc fs →
  (∀ x acc fs, x ∈ l → I acc fs →
     post (λ acc' fs', I acc' fs' ∧ acc ≤ acc' ≤ acc + 1) Q (body x acc fs)) →
  post (λ acc' fs', I acc' fs' ∧ acc ≤ acc' ≤ acc + Z.of_nat (length l)) Q
    (for_each l body acc fs).
Proof.
  revert acc fs. induction l as [|x l IH]; intros acc fs HI Hbody.
  { simpl. split; [done | lia]. }
  cbn [for_each]. apply post_bind.
  assert (post (λ acc' fs', I acc' fs' ∧ acc ≤ acc' ≤ acc + 1) Q
            (body x acc fs)) as Hx.
  { apply Hbody; [|done]. apply elem_of_cons. by left. }
  destruct (body x acc fs) as [acc1 fs1|e fs1]; simpl in *; [|done].
  destruct Hx as [HI1 Hacc1].
  eapply post_mono; [| |apply (IH acc1 fs1 HI1)]; [|done|].
  - intros acc2 fs2 [HI2 Hacc2]. split; [done |].
    rewrite Nat2Z.inj_succ. lia.
  - intros y acc0 fs0 Hy HI0. apply Hbody; [|done].
    apply elem_of_cons. by right.
Qed.

(** ** The directory form of the content substitutor *)

Lemma replace_content_in_directory_post
    (self : config) (file_magic : option (string → string))
    (dir_path : list string) (old_str new_str : string) (fs : fsys) :
  post
    (λ count fs',
       (0 ≤ count ∧ (count = 0 → fs' = fs)
        ∧ ∀ p, ".git" ∈ p ∨ ¬ below dir_path p → fs' !! p = fs !! p)
       ∧ 0 ≤ count ≤ 0 + Z.of_nat (length (rglob fs dir_path)))
    (λ _, False)
    (replace_content_in_directory self file_magic dir_path old_str new_str fs).
Proof.
  unfold replace_content_in_directory. apply post_bind. simpl.
  apply (post_for_each_count
    (λ count fs',
       0 ≤ count ∧ (count = 0 → fs' = fs)
       ∧ ∀ p, ".git" ∈ p ∨ ¬ below dir_path p → fs' !! p = fs !! p));
    [done |].
  intros file_path count0 fs1 [_ Hbelow]%elem_of_rglob (Hc0 & Hz & Hfr).
  unfold bind at 1. simpl.
  destruct (is_file fs1 file_path && _) eqn:Hcond; simpl;
    [|repeat split; (done || lia)].
  apply andb_true_iff in Hcond as [_ Hgit%bool_decide_eq_true].
  destruct (replace_content_in_file_cases self file_magic file_path
              old_str new_str fs1) as [Hr | (f & text & _ & _ & _ & _ & Hr)];
    rewrite (bind_ok _ _ _ _ _ Hr); simpl.
  - repeat split; (done || lia).
  - repeat split; try lia.
    intros p [Hp | Hp]; rewrite lookup_insert_ne; auto; by intros ->.
Qed.

(** [replace_content_in_directory] always returns.  Its count is at most
    the number of entries below the directory; a count of zero means that
    nothing was written; and no entry with a [.git] part, and no entry that
    is not below the directory, is changed. *)
Theorem replace_content_in_directory_frame
    (self : config) (file_magic : option (string → string))
    (dir_path : list string) (old_str new_str : string) (fs : fsys) :
  ∃ count fs',
    replace_content_in_directory self file_magic dir_path old_str new_str fs
    = Ok count fs'
    ∧ 0 ≤ count ≤ Z.of_nat (length (rglob fs dir_path))
    ∧ (count = 0 → fs' = fs)
    ∧ (∀ p, ".git" ∈ p ∨ ¬ below dir_path p → fs' !! p = fs !! p).
Proof.
  pose proof (replace_content_in_directory_post self file_magic dir_path
                old_str new_str fs) as H.
  destruct (replace_content_in_directory _ _ _ _ _ _) as [count fs'|];
    simpl in H; [|done].
  destruct H as [(_ & Hzero & Hframe) Hcount]. eauto 10.
Qed.

(** ** The copy of a file *)

Lemma replace_content_in_file_result
    (self : config) (file_magic : option (string → string))
    (file_path : list string) (old_str new_str : string) (fs : fsys) :
  replace_content_in_file self file_magic file_path old_str new_str fs
  = Ok false fs
  ∨ ∃ f text,
      fs !! file_path = Some (File f)
      ∧ readable f = true ∧ writable f = true
      ∧ occurs (case_sensitive self) old_str (content f)
      ∧ new_name_of self (content f) old_str new_str = Some text
      ∧ replace_content_in_file self file_magic file_path old_str new_str fs
        = Ok true (<[file_path := File (mkFile text true true)]> fs).
Proof.
  destruct (replace_content_in_file_cases self file_magic file_path
              old_str new_str fs) as [H | (f & text & Hf & Hr & Hw & Hc & H)];
    [by left | right].
  assert (replace_content_try self file_magic file_path old_str new_str fs
          = Ok true (<[file_path := File (mkFile text true true)]> fs)) as Ht.
  { revert H. unfold replace_content_in_file, try_except, ret.
    by destruct (replace_content_try _ _ _ _ _ _). }
  apply replace_content_try_true in Ht
    as (magic & f' & text' & _ & _ & Hf' & _ & _ & Hc' & Hsub & Heq).
  rewrite Hf in Hf'. injection Hf' as <-.
  exists f, text'. rewrite H. repeat split; try done.
  - by apply old_present_iff.
  - by rewrite Heq.
Qed.



(** ** When a name changes *)

Lemma length_drop (k : nat) (s : string) :
  String.length (Str.drop k s) = (String.length s - k)%nat.
Proof. revert k. induction s as [|c s IH]; intros [|k]; simpl; auto. Qed.

Lemma length_app (s t : string) :
  String.length (s +:+ t) = (String.length s + String.length t)%nat.
Proof.
  induction s as [|c s IH]; [done |].
  rewrite StrFacts.app_cons. simpl. by rewrite IH.
Qed.

Lemma drop_app_length (s t : string) : Str.drop (String.length s) (s +:+ t) = t.
Proof. induction s as [|c s IH]; [by destruct t | done]. Qed.

Lemma take_app_length (s t : string) : Str.take (String.length s) (s +:+ t) = s.
Proof.
  induction s as [|c s IH]; [by destruct t |].
  rewrite StrFacts.app_cons. simpl. by rewrite IH.
Qed.

Lemma app_inv_length (a b c d : string) :
  String.length a = String.length c → a +:+ b = c +:+ d → a = c ∧ b = d.
Proof.
  revert c. induction a as [|x a IH]; intros [|y c] Hlen Heq; try done.
  rewrite !StrFacts.app_cons in Heq. injection Heq as -> Heq.
  injection Hlen as Hlen. destruct (IH c Hlen Heq) as [-> ->]. done.
Qed.

(** Induction along the scan of replace-all. *)
Lemma sub_all_ind (eqc : ascii → ascii → bool) (p : string)
    (P : string → Prop) :
  p ≠ "" →
  P "" →
  (∀ s, Str.starts eqc p s = true → P (Str.drop (String.length p) s) → P s) →
  (∀ c s, Str.starts eqc p (String c s) = false → P s → P (String c s)) →
  ∀ s, P s.
Proof.
  intros Hp Hnil Hmatch Hskip s.
  assert (∀ n s, (String.length s ≤ n)%nat → P s) as H; [|by eapply H].
  clear s. induction n as [|n IH]; intros [|c s] Hlen; simpl in Hlen;
    try done; [lia |].
  destruct (Str.starts eqc p (String c s)) eqn:Hs.
  - apply Hmatch; [done |]. apply IH. rewrite length_drop. simpl.
    destruct p; [done |]. simpl. lia.
  - apply Hskip; [done |]. apply IH. lia.
Qed.

Lemma replace_match (old new s : string) :
  old ≠ "" → Str.starts Str.eq_case old s = true →
  s = old +:+ Str.drop (String.length old) s
  ∧ Str.replace old new s
    = new +:+ Str.replace old new (Str.drop (String.length old) s).
Proof.
  intros Hold Hs. split.
  - apply StrFacts.starts_case_iff in Hs as [post ->].
    by rewrite drop_app_length.
  - unfold Str.replace. by rewrite StrFacts.sub_all_match.
Qed.

Lemma replace_length_le (old new s : string) :
  old ≠ "" → (String.length new ≤ String.length old)%nat →
  (String.length (Str.replace old new s) ≤ String.length s)%nat.
Proof.
  intros Hold Hlen. revert s. apply (sub_all_ind Str.eq_case old); [done | ..].
  - by destruct old.
  - intros s Hs IH. destruct (replace_match old new s Hold Hs) as [Hsplit ->].
    rewrite Hsplit at 2. rewrite !length_app. lia.
  - intros c s Hs IH. unfold Str.replace in *.
    rewrite StrFacts.sub_all_no_match by done. simpl. lia.
Qed.

Lemma replace_length_ge (old new s : string) :
  old ≠ "" → (String.length old ≤ String.length new)%nat →
  (String.length s ≤ String.length (Str.replace old new s))%nat.
Proof.
  intros Hold Hlen. revert s. apply (sub_all_ind Str.eq_case old); [done | ..].
  - by destruct old.
  - intros s Hs IH. destruct (replace_match old new s Hold Hs) as [Hsplit ->].
    rewrite Hsplit at 1. rewrite !length_app. lia.
  - intros c s Hs IH. unfold Str.replace in *.
    rewrite StrFacts.sub_all_no_match by done. simpl. lia.
Qed.

(** [s.replace(old, new)] is [s] exactly when [old] is not in [s] or
    [new] is [old]. *)
Lemma replace_fixed_iff (old new s : string) :
  old ≠ "" →
  Str.replace old new s = s ↔ Str.contains old s = false ∨ new = old.
Proof.
  intros Hold. revert s. apply (sub_all_ind Str.eq_case old); [done | ..].
  - destruct old; [done |]. split; [by left | done].
  - intros s Hs IH. destruct (replace_match old new s Hold Hs) as [Hsplit ->].
    assert (Str.contains old s = true) as Hc.
    { unfold Str.contains. destruct s; simpl; rewrite Hs; done. }
    rewrite Hc. split.
    + intros Heq. right. rewrite Hsplit in Heq at 2.
      destruct (decide (String.length new = String.length old)) as [Hl|Hl].
      * by destruct (app_inv_length _ _ _ _ Hl Heq).
      * exfalso. apply (f_equal String.length) in Heq.
        rewrite !length_app in Heq.
        pose proof (replace_length_le old new
                      (Str.drop (String.length old) s) Hold).
        pose proof (replace_length_ge old new
                      (Str.drop (String.length old) s) Hold).
        lia.
    + intros [? | ->]; [done |]. rewrite Hsplit at 2. f_equal.
      apply IH. by right.
  - intros c s Hs IH. unfold Str.replace, Str.contains in *.
    rewrite StrFacts.sub_all_no_match by done.
    cbn [Str.find]. rewrite Hs. simpl. rewrite <- IH.
    split; [by intros [= ?] | by intros ->].
Qed.

(** Under case-sensitive matching, with a non-empty [old_str]: the
    transformed name is the name itself exactly when [old_str] does not
    occur in the name or [new_str] is [old_str]. *)
Theorem new_name_unchanged_iff
    (self : config) (item_name old_str new_str : string) :
  case_sensitive self = true →
  old_str ≠ "" →
  new_name_of self item_name old_str new_str = Some item_name
  ↔ ¬ occurs true old_str item_name ∨ new_str = old_str.
Proof.
  intros Hcs Hold. unfold new_name_of. rewrite Hcs.
  rewrite <- (old_present_iff true). simpl. rewrite not_true_iff_false.
  rewrite <- replace_fixed_iff by done. split; congruence.
Qed.

Lemma new_name_unchanged_iff_witness :
  new_name_of (Sample.cfg true) "dev-service.yaml" "dev" "dev"
  = Some "dev-service.yaml"
  ↔ ¬ occurs true "dev" "dev-service.yaml" ∨ "dev" = "dev".
Proof.
  apply (new_name_unchanged_iff (Sample.cfg true) "dev-service.yaml"
           "dev" "dev").
  - reflexivity.
  - discriminate.
Defined.

(** Under case-sensitive matching, every item the pattern matcher finds
    for a non-empty [old_str] gets another name, unless [new_str] is
    [old_str]: the copy engine never skips a found item as unchanged. *)
Theorem found_items_are_renamed
    (self : config) (fs : fsys) (repo_dir item : list string)
    (old_str new_str : string) :
  case_sensitive self = true →
  old_str ≠ "" →
  new_str ≠ old_str →
  item ∈ find_items_with_pattern self fs repo_dir old_str →
  ∃ new_name,
    new_name_of self (name item) old_str new_str = Some new_name
    ∧ new_name ≠ name item.
Proof.
  intros Hcs Hold Hnew (_ & _ & _ & Hocc)%elem_of_find_items_with_pattern.
  rewrite Hcs in Hocc. unfold new_name_of. rewrite Hcs.
  eexists. split; [done |].
  intros Heq%replace_fixed_iff; [|done].
  destruct Heq as [Hc | ?]; [|done].
  apply (old_present_iff true) in Hocc. simpl in Hocc. congruence.
Qed.

Lemma found_items_are_renamed_witness :
  ∃ new_name,
    new_name_of (Sample.cfg true) (name ["repo"; "dev-service.yaml"])
      "dev" "prod" = Some new_name
    ∧ new_name ≠ name ["repo"; "dev-service.yaml"].
Proof.
  apply (found_items_are_renamed (Sample.cfg true) Sample.taken ["repo"]
           ["repo"; "dev-service.yaml"] "dev" "prod").
  - reflexivity.
  - discriminate.
  - discriminate.
  - apply (bool_decide_unpack _). vm_compute. exact I.
Defined.

(** ** Cloning *)

(** [clone_repository] never raises.  An existing target is used as it is,
    without running [git].  Otherwise [git clone] is tried up to three times:
    the result is that of the first attempt that succeeds, and the answer is
    false exactly when all three fail (a failed [git clone] is taken to
    leave the file system as it was). *)
Theorem clone_repository_attempts
    (git_clone : nat → string → list string → fsys → option fsys)
    (url : string) (target_dir : list string) (repo_name : string)
    (fs : fsys) :
  (is_Some (fs !! target_dir) →
   clone_repository git_clone url target_dir repo_name fs = Ok true fs)
  ∧ (fs !! target_dir = None →
     ∀ fs',
       (clone_repository git_clone url target_dir repo_name fs = Ok true fs'
        ↔ ∃ k, (k < 3)%nat
               ∧ git_clone k url target_dir fs = Some fs'
               ∧ ∀ j, (j < k)%nat → git_clone j url target_dir fs = None)
       ∧ (clone_repository git_clone url target_dir repo_name fs = Ok false fs'
          ↔ fs' = fs
            ∧ ∀ j, (j < 3)%nat → git_clone j url target_dir fs = None))
  ∧ ∃ cloned fs',
      clone_repository git_clone url target_dir repo_name fs = Ok cloned fs'.
Proof.
  unfold clone_repository, path_exists. unfold_M. split; [|split].
  - intros Hex. by rewrite bool_decide_eq_true_2.
  - intros Hfree fs'.
    rewrite bool_decide_eq_false_2 by (rewrite Hfree; by intros [? ?]).
    simpl.
    destruct (git_clone 0%nat url target_dir fs) as [fs0|] eqn:H0;
      [|destruct (git_clone 1%nat url target_dir fs) as [fs1|] eqn:H1;
        [|destruct (git_clone 2%nat url target_dir fs) as [fs2|] eqn:H2]].
    + split; split.
      * intros [= <-]. exists 0%nat. repeat split; [lia | done | lia].
      * intros ([|k] & _ & Hk & Hbefore); [congruence |].
        rewrite Hbefore in H0 by lia. done.
      * done.
      * intros [_ Hall]. rewrite Hall in H0 by lia. done.
    + split; split.
      * intros [= <-]. exists 1%nat. repeat split; [lia | done |].
        intros j Hj. by replace j with 0%nat by lia.
      * intros ([|[|k]] & _ & Hk & Hbefore); [congruence.. |].
        rewrite Hbefore in H1 by lia. done.
      * done.
      * intros [_ Hall]. rewrite Hall in H1 by lia. done.
    + split; split.
      * intros [= <-]. exists 2%nat. repeat split; [lia | done |].
        intros j Hj. destruct j as [|[|j]]; [done | done | lia].
      * intros ([|[|[|k]]] & Hlt & Hk & Hbefore); [congruence.. | lia].
      * done.
      * intros [_ Hall]. rewrite Hall in H2 by lia. done.
    + split; split.
      * done.
      * intros ([|[|[|k]]] & Hlt & Hk & _); [congruence.. | lia].
      * intros [= <-]. split; [done |].
        intros j Hj. destruct j as [|[|[|j]]]; [done.. | lia].
      * by intros [-> _].
  - destruct (bool_decide _); [by eauto |]. simpl.
    destruct (git_clone 0%nat url target_dir fs); [by eauto |].
    destruct (git_clone 1%nat url target_dir fs); [by eauto |].
    destruct (git_clone 2%nat url target_dir fs); by eauto.
Qed.

Lemma clone_repository_attempts_witness :
  clone_repository Sample.git_clone_down "https://git.example.com/acme/tools.git"
    ["repo"] "tools" Sample.taken
  = Ok true Sample.taken.
Proof.
  apply (proj1 (clone_repository_attempts Sample.git_clone_down
                  "https://git.example.com/acme/tools.git" ["repo"] "tools"
                  Sample.taken)).
  eexists. reflexivity.
Defined.

(** ** Counts and the run summary *)

Lemma post_any {A : Type} (o : outcome A) : post (λ _ _, True) (λ _, True) o.
Proof. by destruct o. Qed.

Section Counts.

Variable self : config.
Variable file_magic : option (string → string).

Lemma copy_items_count items old_str new_str dry_run acc fs :
  post (λ n _, acc ≤ n) (λ _, True)
    (copy_items self file_magic items old_str new_str dry_run acc fs).
Proof.
  unfold copy_items.
  eapply post_mono;
    [| |apply (post_for_each (λ n _, acc ≤ n) (λ _, True))]; try done.
  intros item n fs1 _ Hn. apply post_bind.
  destruct (create_renamed_copy _ _ _ _ _ _ _) as [[] ?|]; simpl; (done || lia).
Qed.

Lemma copy_pairs_count repo_dir pairs dry_run fs :
  post (λ n _, 0 ≤ n) (λ _, True)
    (copy_pairs self file_magic repo_dir pairs dry_run fs).
Proof.
  unfold copy_pairs. apply post_for_each; [done |].
  intros [old_str new_str] n fs1 _ Hn. apply post_bind. simpl.
  eapply post_mono; [| |apply copy_items_count]; [|done].
  intros n' fs' ?. simpl in *. lia.
Qed.

Lemma fix_item_count item old_str new_str dry_run acc fs :
  post (λ n _, acc ≤ n) (λ _, True)
    (fix_item self file_magic item old_str new_str dry_run acc fs).
Proof.
  destruct dry_run.
  - destruct (fix_item_dry self file_magic item old_str new_str acc fs)
      as (n & -> & ? & _). simpl. lia.
  - unfold fix_item. apply post_bind. simpl.
    destruct (is_dir fs item); apply post_bind.
    + destruct (replace_content_in_directory _ _ _ _ _ _) as [count ?|];
        simpl; [|done]. destruct (0 <? count); lia.
    + destruct (replace_content_in_file _ _ _ _ _ _) as [[] ?|]; simpl;
        (done || lia).
Qed.

Lemma fix_pairs_count repo_dir pairs dry_run fs :
  post (λ n _, 0 ≤ n) (λ _, True)
    (fix_pairs self file_magic repo_dir pairs dry_run fs).
Proof.
  unfold fix_pairs. apply post_for_each; [done |].
  intros [old_str new_str] n fs1 _ Hn. apply post_bind. simpl.
  unfold fix_items.
  eapply post_mono;
    [| |apply (post_for_each (λ m _, n ≤ m) (λ _, True))]; try done.
  - intros m fs' ?. simpl in *. lia.
  - intros item m fs2 _ Hm.
    eapply post_mono; [| |apply fix_item_count]; [|done].
    intros m' fs' ?. simpl in *. lia.
Qed.

Variable git_clone : nat → string → list string → fsys → option fsys.
Variable checkout_base_branch : list string → string → M bool.
Variable create_or_checkout_branch : list string → string → M bool.
Variable git_add_commit_push : list string → string → string → M bool.

Lemma post_when (b : bool) (m : M bool) (P : fsys → Prop) fs :
  (∀ fs', P fs') → post (λ _ fs', P fs') (λ _, True) (when b m fs).
Proof.
  intros HP. unfold when. destruct b; [|apply HP].
  apply post_bind. destruct (m fs); simpl; auto.
Qed.

(** Neither mode ever answers a negative count. *)
Lemma process_repository_count repo_input dry_run push fs :
  post (λ n _, 0 ≤ n) (λ _, True)
    (process_repository self file_magic git_clone checkout_base_branch
       create_or_checkout_branch git_add_commit_push repo_input dry_run
       push fs)
  ∧ post (λ n _, 0 ≤ n) (λ _, True)
      (process_repository_fix_mode self file_magic git_clone
         checkout_base_branch create_or_checkout_branch git_add_commit_push
         repo_input dry_run push fs).
Proof.
  unfold process_repository, process_repository_fix_mode.
  split; apply post_bind;
    (destruct (clone_repository _ _ _ _ _) as [[] fs1|]; simpl; [|done..]);
    apply post_bind;
    (eapply post_mono; [| |apply (post_when _ _ (λ _, True))]; try done);
    intros [] fs2 _; apply post_bind;
    (eapply post_mono; [| |apply (post_when _ _ (λ _, True))]; try done);
    intros [] fs3 _; apply post_bind.
  - eapply post_mono; [| |apply copy_pairs_count]; [|done].
    intros n fs4 Hn. apply post_bind.
    eapply post_mono; [| |apply (post_when _ _ (λ _, True))]; done.
  - eapply post_mono; [| |apply fix_pairs_count]; [|done].
    intros n fs4 Hn. apply post_bind.
    eapply post_mono; [| |apply (post_when _ _ (λ _, True))]; done.
Qed.

(** The loop of [run] over the lines: every line that names a repository
    is counted, and counted as a success. *)
Lemma run_lines_tally dry_run push lines items ok total fs items' ok' total' fs' :
  for_each lines
    (run_line self file_magic git_clone checkout_base_branch
       create_or_checkout_branch git_add_commit_push dry_run push)
    (items, ok, total) fs
  = Ok (items', ok', total') fs' →
  total' = total + Z.of_nat (length (filter (λ l, repo_line l = true) lines))
  ∧ ok' - ok = total' - total
  ∧ items ≤ items'.
Proof.
  revert items ok total fs.
  induction lines as [|line lines IH]; intros items ok total fs Hrun.
  { injection Hrun as <- <- <- <-. simpl. lia. }
  cbn [for_each] in Hrun. revert Hrun. unfold run_line at 1.
  destruct (repo_line line) eqn:Hline.
  - rewrite filter_cons_True by done. unfold repo_line in Hline.
    apply negb_true_iff in Hline. rewrite Hline. unfold bind at 1 2.
    pose proof (process_repository_count (Str.strip line) dry_run push fs)
      as [Hcopy Hfix].
    destruct (fix_mode self).
    + destruct (process_repository_fix_mode _ _ _ _ _ _ _ _ _ _)
        as [n fs1|]; simpl in *; [|done].
      rewrite (proj2 (Z.leb_le 0 n)) by done. unfold ret.
      intros (-> & ? & ?)%IH. rewrite Nat2Z.inj_succ. lia.
    + destruct (process_repository _ _ _ _ _ _ _ _ _ _)
        as [n fs1|]; simpl in *; [|done].
      rewrite (proj2 (Z.leb_le 0 n)) by done. unfold ret.
      intros (-> & ? & ?)%IH. rewrite Nat2Z.inj_succ. lia.
  - rewrite filter_cons_False by (by rewrite Hline). unfold repo_line in Hline.
    apply negb_false_iff in Hline. rewrite Hline.
    unfold bind at 1, ret. apply IH.
Qed.

End Counts.

(** When [run] returns, its exit code is 1 exactly when the repository
    list is missing or no replacement is configured.  Otherwise every
    repository counted is counted as a success and the exit code is 0; the
    total of items is never negative; and, for a list of ASCII lines
    without carriage returns, the repositories counted are the lines that
    are neither blank nor a comment. *)
Theorem run_summary
    (self : config) (file_magic : option (string → string))
    (git_clone : nat → string → list string → fsys → option fsys)
    (checkout_base_branch create_or_checkout_branch : list string → string → M bool)
    (git_add_commit_push : list string → string → string → M bool)
    (repo_list : option (list string)) (dry_run push : bool)
    (s : summary) (fs fs' : fsys) :
  run self file_magic git_clone checkout_base_branch create_or_checkout_branch
    git_add_commit_push repo_list dry_run push fs = Ok s fs' →
  (exit_code s = 1 ↔ repo_list = None ∨ replacements self = [])
  ∧ (exit_code s = 0 ∨ exit_code s = 1)
  ∧ successful_repos s = total_repos s
  ∧ 0 ≤ total_items s
  ∧ ∀ lines,
      repo_list = Some lines → replacements self ≠ [] →
      Forall (λ l, plain_text l = true) lines →
      total_repos s
      = Z.of_nat (length (filter (λ l, repo_line l = true) lines)).
Proof.
  unfold run. destruct repo_list as [lines|].
  2:{ intros [= <- <-]. simpl. repeat split; auto; try lia. done. }
  destruct (replacements self) as [|pair pairs] eqn:Hrep.
  { intros [= <- <-]. simpl. repeat split; auto; try lia. done. }
  unfold bind at 1. destruct (makedirs _ _) as [[] fs1|]; [|done].
  unfold bind at 1.
  destruct (for_each _ _ _ _) as [[[items ok] total] fs2|] eqn:Hloop; [|done].
  apply run_lines_tally in Hloop as (Htotal & Hok & Hitems).
  assert (ok = total) as -> by lia. rewrite Z.eqb_refl.
  unfold ret. intros [= <- <-]. simpl. repeat split; auto; try lia.
  - by intros [? | ?].
  - intros lines' [= <-] _ _. lia.
Qed.

Lemma run_summary_witness :
  (exit_code (mkSummary 0 1 1 0) = 1
   ↔ Some ["# tools"; ""; "acme-tools"] = None
     ∨ replacements (Sample.cfg true) = [])
  ∧ (exit_code (mkSummary 0 1 1 0) = 0 ∨ exit_code (mkSummary 0 1 1 0) = 1)
  ∧ successful_repos (mkSummary 0 1 1 0) = total_repos (mkSummary 0 1 1 0)
  ∧ 0 ≤ total_items (mkSummary 0 1 1 0)
  ∧ ∀ lines,
      Some ["# tools"; ""; "acme-tools"] = Some lines →
      replacements (Sample.cfg true) ≠ [] →
      Forall (λ l, plain_text l = true) lines →
      total_repos (mkSummary 0 1 1 0)
      = Z.of_nat (length (filter (λ l, repo_line l = true) lines)).
Proof.
  apply (run_summary (Sample.cfg true) Sample.magic Sample.git_clone_down
           Sample.git_idle Sample.git_idle Sample.git_push_idle
           (Some ["# tools"; ""; "acme-tools"]) false false
           (mkSummary 0 1 1 0) {[ [] := Dir ]}
           (<[ ["repos_temp"] := Dir ]> {[ [] := Dir ]})).
  vm_compute. reflexivity.
Defined.

(** ** Runs that do not call git *)

Lemma when_false (m : M bool) (fs : fsys) : when false m fs = Ok tt fs.
Proof. reflexivity. Qed.

(** On a clone that is already there, with neither a base branch nor a
    working branch configured, and in dry run or without push, processing a
    repository is the pass of the engine and nothing else: whatever [git]
    would do, no [git] command is run. *)
Theorem process_repository_without_git
    (self : config) (file_magic : option (string → string))
    (git_clone : nat → string → list string → fsys → option fsys)
    (checkout_base_branch create_or_checkout_branch : list string → string → M bool)
    (git_add_commit_push : list string → string → string → M bool)
    (repo_input : string) (dry_run push : bool) (fs : fsys) :
  is_Some (fs !! joinpath (work_dir self) (get_repo_name repo_input)) →
  base_branch self = "" →
  branch_name self = "" →
  dry_run = true ∨ push = false →
  process_repository self file_magic git_clone checkout_base_branch
    create_or_checkout_branch git_add_commit_push repo_input dry_run push fs
  = copy_pairs self file_magic
      (joinpath (work_dir self) (get_repo_name repo_input))
      (replacements self) dry_run fs
  ∧ process_repository_fix_mode self file_magic git_clone checkout_base_branch
      create_or_checkout_branch git_add_commit_push repo_input dry_run push fs
    = fix_pairs self file_magic
        (joinpath (work_dir self) (get_repo_name repo_input))
        (replacements self) dry_run fs.
Proof.
  intros Hex Hbase Hbranch Hquiet.
  assert (clone_repository git_clone (construct_repo_url self repo_input)
            (joinpath (work_dir self) (get_repo_name repo_input))
            (get_repo_name repo_input) fs = Ok true fs) as Hclone.
  { unfold clone_repository, path_exists. unfold_M.
    by rewrite bool_decide_eq_true_2. }
  assert (∀ n : Z, push && negb dry_run && (0 <? n) = false) as Hpush.
  { intros n. destruct Hquiet as [-> | ->]; [by destruct push | done]. }
  unfold process_repository, process_repository_fix_mode.
  rewrite !(bind_ok _ _ _ _ _ Hclone). simpl.
  rewrite Hbase, Hbranch.
  rewrite !(bool_decide_eq_false_2 ("" ≠ "")) by (by intros ?).
  rewrite !(bind_ok _ _ _ _ _ (when_false _ _)).
  unfold bind. split.
  - destruct (copy_pairs _ _ _ _ _ _) as [n fs1|]; [|done].
    by rewrite Hpush.
  - destruct (fix_pairs _ _ _ _ _ _) as [n fs1|]; [|done].
    by rewrite Hpush.
Qed.

Lemma process_repository_without_git_witness :
  process_repository
    (mkConfig "https://git.example.com/acme" "none" "" "" "" "" true []
       "Update" false [("dev", "prod")])
    Sample.magic Sample.git_clone_down Sample.git_idle Sample.git_idle
    Sample.git_push_idle "repo" true true Sample.tree
  = copy_pairs
      (mkConfig "https://git.example.com/acme" "none" "" "" "" "" true []
         "Update" false [("dev", "prod")])
      Sample.magic (joinpath [] (get_repo_name "repo")) [("dev", "prod")]
      true Sample.tree.
Proof.
  refine (proj1 (process_repository_without_git
                   (mkConfig "https://git.example.com/acme" "none" "" "" ""
                      "" true [] "Update" false [("dev", "prod")])
                   Sample.magic Sample.git_clone_down Sample.git_idle
                   Sample.git_idle Sample.git_push_idle "repo" true true
                   Sample.tree _ _ _ _)).
  - eexists. reflexivity.
  - reflexivity.
  - reflexivity.
  - left. reflexivity.
Defined.

(** ** Repository names and URLs *)

Lemma mem_app (c : ascii) (s t : string) :
  Str.mem c (s +:+ t) = Str.mem c s || Str.mem c t.
Proof.
  induction s as [|d s IH]; [done |].
  rewrite StrFacts.app_cons. simpl. by rewrite IH, orb_assoc.
Qed.

Lemma mem_take (c : ascii) (n : nat) (s : string) :
  Str.mem c s = false → Str.mem c (Str.take n s) = false.
Proof.
  revert n. induction s as [|d s IH]; intros [|n]; simpl; try done.
  intros [-> Hs]%orb_false_iff. simpl. by apply IH.
Qed.

Lemma split_not_nil (sep : ascii) (s : string) : Str.split sep s ≠ [].
Proof.
  destruct s as [|c s]; simpl; [done |].
  destruct (Ascii.eqb c sep); [done |]. by destruct (Str.split sep s).
Qed.

(** No field of a split contains the separator. *)
Lemma split_fields (sep : ascii) (s : string) :
  Forall (λ x, Str.mem sep x = false) (Str.split sep s).
Proof.
  induction s as [|c s IH]; simpl; [by repeat constructor |].
  destruct (Ascii.eqb c sep) eqn:Hc; [by constructor |].
  destruct (Str.split sep s) as [|h t] eqn:Hs;
    [by apply split_not_nil in Hs |].
  inversion IH as [|?? Hh Ht]; subst. constructor; [|done].
  simpl. by rewrite Ascii.eqb_sym, Hc.
Qed.

Lemma split_no_sep (sep : ascii) (s : string) :
  Str.mem sep s = false → Str.split sep s = [s].
Proof.
  induction s as [|c s IH]; simpl; [done |].
  intros [Hc Hs]%orb_false_iff. rewrite Ascii.eqb_sym, Hc. by rewrite IH.
Qed.

Lemma last_field_no_sep (sep : ascii) (s : string) :
  Str.mem sep (Str.last_field sep s) = false.
Proof.
  unfold Str.last_field. pose proof (split_fields sep s) as H.
  pose proof (split_not_nil sep s) as Hne.
  induction H as [|x l Hx Hl IH]; [done |].
  destruct l as [|y l]; [done |]. by apply IH.
Qed.

(** [(a + sep + t).split(sep)] is [a.split(sep) + t.split(sep)]. *)
Lemma split_app (sep : ascii) (a t : string) :
  Str.split sep (a +:+ String sep t) = Str.split sep a ++ Str.split sep t.
Proof.
  induction a as [|c a IH].
  - rewrite StrFacts.app_nil_l. simpl. by rewrite Ascii.eqb_refl.
  - rewrite StrFacts.app_cons. simpl. rewrite IH.
    destruct (Ascii.eqb c sep); [done |].
    pose proof (split_not_nil sep a). by destruct (Str.split sep a).
Qed.

Lemma last_app_not_nil {A : Type} (l1 l2 : list A) (d : A) :
  l2 ≠ [] → List.last (l1 ++ l2) d = List.last l2 d.
Proof.
  intros Hl2. induction l1 as [|x l1 IH]; [done |].
  simpl. rewrite IH. by destruct (l1 ++ l2) eqn:Hl; [destruct l1 |].
Qed.

(** After a separator, the last field is the last field of the rest. *)
Lemma last_field_app (sep : ascii) (a t : string) :
  Str.last_field sep (a +:+ String sep t) = Str.last_field sep t.
Proof.
  unfold Str.last_field. rewrite split_app.
  apply last_app_not_nil, split_not_nil.
Qed.

Lemma last_char_app (s t : string) :
  t ≠ "" → Str.last_char (s +:+ t) = Str.last_char t.
Proof.
  intros Ht. induction s as [|c s IH]; [done |].
  rewrite StrFacts.app_cons. cbn [Str.last_char]. rewrite IH.
  destruct (s +:+ t) eqn:Hst; [|done].
  destruct s; [by rewrite StrFacts.app_nil_l in Hst | done].
Qed.

Lemma all_in_last (chars t : string) (c : ascii) :
  Str.all_in chars t = true → Str.last_char t = Some c → Str.mem c chars = true.
Proof.
  induction t as [|d t IH]; [done |]. cbn [Str.all_in Str.last_char].
  intros [Hd Ht]%andb_true_iff. destruct t; [by intros [= <-] | by apply IH].
Qed.

(** [rstrip] leaves a string whose last character is not to be stripped. *)
Lemma rstrip_id (chars s : string) :
  (∀ c, Str.last_char s = Some c → Str.mem c chars = false) →
  Str.rstrip chars s = s.
Proof.
  intros Hlast. destruct (rstrip_spec chars s) as (suffix & Hs & Hall & _).
  destruct suffix as [|d suffix]; [by rewrite StrFacts.app_nil_r in Hs |].
  exfalso. destruct (Str.last_char (String d suffix)) as [c|] eqn:Hc.
  - pose proof (all_in_last _ _ _ Hall Hc) as Hin.
    rewrite Hs, last_char_app in Hlast by done.
    rewrite (Hlast c Hc) in Hin. done.
  - clear -Hc. revert d Hc. induction suffix as [|e suffix IH]; [done |].
    intros d Hc. by apply (IH e).
Qed.

Lemma rev_app_app (a b acc : string) :
  String.rev_app (a +:+ b) acc = String.rev_app b (String.rev_app a acc).
Proof.
  revert acc. induction a as [|c a IH]; intros acc; [done |].
  rewrite StrFacts.app_cons. simpl. apply IH.
Qed.

Lemma starts_app (p s : string) : Str.starts Str.eq_case p (p +:+ s) = true.
Proof. apply StrFacts.starts_case_iff. by exists s. Qed.

Lemma endswith_app (p s : string) : Str.endswith p (s +:+ p) = true.
Proof.
  unfold Str.endswith, String.rev. rewrite rev_app_app.
  assert (∀ acc, String.rev_app p acc = String.rev_app p "" +:+ acc) as H.
  { clear. induction p as [|c p IH]; intros acc; [done |].
    simpl. rewrite IH, (IH (String c "")).
    by rewrite StrFacts.app_assoc. }
  rewrite (H (String.rev_app s "")). apply starts_app.
Qed.

Lemma drop_right_app (s p : string) :
  Str.drop_right (String.length p) (s +:+ p) = s.
Proof.
  unfold Str.drop_right. rewrite length_app.
  replace (String.length s + String.length p - String.length p)%nat
    with (String.length s) by lia.
  apply take_app_length.
Qed.

(** A short name becomes [<base>/<name>.git]. *)
Lemma construct_repo_url_short (self : config) (repo_input : string) :
  is_url repo_input = false →
  ∃ base,
    construct_repo_url self repo_input
    = base +:+ "/" +:+ get_repo_name repo_input +:+ ".git".
Proof.
  intros Hurl. unfold get_repo_name, construct_repo_url. rewrite Hurl.
  repeat case_decide; try destruct (Str.contains _ _).
  - eexists. by rewrite <- !StrFacts.app_assoc.
  - eexists. by rewrite <- !StrFacts.app_assoc.
  - by eexists.
  - by eexists.
Qed.

(** The name taken from the URL that [construct_repo_url] builds is the
    name taken from the input, when the built address is one
    [get_repo_name] reads as a URL and the name has no separator: the clone
    directory does not depend on which of the two is used. *)
Theorem get_repo_name_of_constructed_url
    (self : config) (repo_input : string) :
  is_url (construct_repo_url self repo_input) = true →
  Str.mem "/" (get_repo_name repo_input) = false →
  get_repo_name (construct_repo_url self repo_input)
  = get_repo_name repo_input.
Proof.
  intros Hbuilt Hname. destruct (is_url repo_input) eqn:Hurl.
  { unfold construct_repo_url. by rewrite Hurl. }
  destruct (construct_repo_url_short self repo_input Hurl) as [base Hform].
  rewrite Hform in *. set (r := get_repo_name repo_input) in *.
  unfold get_repo_name at 1. rewrite Hbuilt.
  rewrite rstrip_id.
  2:{ intros c. rewrite <- !StrFacts.app_assoc, last_char_app by done.
      by intros [= <-]. }
  change ("/" +:+ r +:+ ".git") with (String "/" (r +:+ ".git")).
  rewrite last_field_app. unfold Str.last_field.
  rewrite split_no_sep by (by rewrite mem_app, Hname).
  simpl. rewrite endswith_app. apply (drop_right_app r ".git").
Qed.

Lemma get_repo_name_of_constructed_url_witness :
  get_repo_name (construct_repo_url (Sample.cfg true) "audit.git")
  = get_repo_name "audit.git".
Proof.
  apply (get_repo_name_of_constructed_url (Sample.cfg true) "audit.git");
    reflexivity.
Defined.

(** The name taken from a URL has no separator.  The clone directory is
    the working directory itself for an empty name or [.], and otherwise
    the working directory followed by the name as a single part.  That part
    is [..] for a URL that ends so: the clone directory is then the parent
    of the working directory, not an entry in it. *)
Theorem url_repo_name_is_one_part
    (work : list string) (repo_input : string) :
  is_url repo_input = true →
  Str.mem "/" (get_repo_name repo_input) = false
  ∧ (get_repo_name repo_input = "" ∨ get_repo_name repo_input = "." →
     joinpath work (get_repo_name repo_input) = work)
  ∧ (get_repo_name repo_input ≠ "" → get_repo_name repo_input ≠ "." →
     joinpath work (get_repo_name repo_input)
     = work ++ [get_repo_name repo_input]).
Proof.
  intros Hurl.
  assert (Str.mem "/" (get_repo_name repo_input) = false) as Hname.
  { unfold get_repo_name. rewrite Hurl. simpl.
    destruct (Str.endswith _ _); [apply mem_take |]; apply last_field_no_sep. }
  split; [done |]. unfold joinpath, parts.
  rewrite split_no_sep by done. rewrite filter_cons, filter_nil.
  case_decide as Hn.
  - split; [|done]. intros [He | He]; rewrite He in Hn; by destruct Hn.
  - rewrite app_nil_r. split; [done |]. intros H1 H2. by destruct Hn.
Qed.

Lemma url_repo_name_is_one_part_witness :
  Str.mem "/" (get_repo_name "https://git.example.com/acme/audit.git") = false
  ∧ (get_repo_name "https://git.example.com/acme/audit.git" = ""
     ∨ get_repo_name "https://git.example.com/acme/audit.git" = "." →
     joinpath ["repos_temp"]
       (get_repo_name "https://git.example.com/acme/audit.git")
     = ["repos_temp"])
  ∧ (get_repo_name "https://git.example.com/acme/audit.git" ≠ "" →
     get_repo_name "https://git.example.com/acme/audit.git" ≠ "." →
     joinpath ["repos_temp"]
       (get_repo_name "https://git.example.com/acme/audit.git")
     = ["repos_temp"]
       ++ [get_repo_name "https://git.example.com/acme/audit.git"]).
Proof.
  apply (url_repo_name_is_one_part ["repos_temp"]
           "https://git.example.com/acme/audit.git").
  reflexivity.
Defined.

(** A URL that ends in [..], in [.] or in [/.git] names the parent of the
    working directory or the working directory itself. *)
Example url_repo_name_dot_dot :
  get_repo_name "https://git.example.com/acme/.." = ".."
  ∧ joinpath ["repos_temp"] (get_repo_name "https://git.example.com/acme/..")
    = ["repos_temp"; ".."]
  ∧ joinpath ["repos_temp"] (get_repo_name "https://git.example.com/acme/.")
    = ["repos_temp"]
  ∧ joinpath ["repos_temp"]
      (get_repo_name "https://git.example.com/acme/.git")
    = ["repos_temp"].
Proof. repeat split; reflexivity. Qed.

(** ** The replacement pairs of the configuration *)

Example parse_replacements_example :
  _parse_replacements
    (entries [(" ", ("dev", "prod")); (" ", ("test ", " final"))] +:+ " ")
  = [("dev", "prod"); ("test", "final")].
Proof. reflexivity. Qed.

Lemma mem_cons (c d : ascii) (s : string) :
  Str.mem c (String d s) = Ascii.eqb c d || Str.mem c s.
Proof. reflexivity. Qed.

Lemma findall_quoted_cons (run : option string) (c : ascii) (s : string) :
  findall_quoted run (String c s)
  = if Ascii.eqb c dquote then
      match run with
      | Some (String _ _ as m) => m :: findall_quoted None s
      | _ => findall_quoted (Some "") s
      end
    else
      match run with
      | Some m => findall_quoted (Some (m +:+ String c "")) s
      | None => findall_quoted None s
      end.
Proof. reflexivity. Qed.

Lemma findall_quoted_gap (gap s : string) :
  Str.mem dquote gap = false →
  findall_quoted None (gap +:+ s) = findall_quoted None s.
Proof.
  induction gap as [|c gap IH]; [done |].
  rewrite StrFacts.app_cons, mem_cons, findall_quoted_cons.
  intros [Hc Hgap]%orb_false_iff. rewrite Ascii.eqb_sym, Hc. by apply IH.
Qed.

Lemma findall_quoted_run (m x s : string) :
  Str.mem dquote x = false →
  findall_quoted (Some m) (x +:+ String dquote s)
  = match m +:+ x with
    | "" => findall_quoted (Some "") s
    | String _ _ as r => r :: findall_quoted None s
    end.
Proof.
  revert m. induction x as [|c x IH]; intros m.
  - intros _. rewrite StrFacts.app_nil_l, StrFacts.app_nil_r.
    rewrite findall_quoted_cons, Ascii.eqb_refl. by destruct m.
  - rewrite StrFacts.app_cons, mem_cons, findall_quoted_cons.
    intros [Hc Hx]%orb_false_iff. rewrite Ascii.eqb_sym, Hc.
    rewrite IH by done. by rewrite StrFacts.app_assoc.
Qed.

Lemma findall_quoted_entry (e : string * string) (s : string) :
  Str.mem dquote e.1 = false → Str.mem dquote e.2 = false →
  findall_quoted None (entry e +:+ s)
  = (e.1 +:+ String "|" e.2) :: findall_quoted None s.
Proof.
  intros H1 H2. unfold entry.
  rewrite StrFacts.app_cons, findall_quoted_cons, Ascii.eqb_refl.
  replace ((e.1 +:+ String "|" (e.2 +:+ String dquote "")) +:+ s)
    with ((e.1 +:+ String "|" e.2) +:+ String dquote s).
  2:{ rewrite !StrFacts.app_assoc, !StrFacts.app_cons.
      by rewrite StrFacts.app_assoc. }
  rewrite findall_quoted_run.
  - rewrite StrFacts.app_nil_l. by destruct (e.1).
  - rewrite mem_app, mem_cons, H1, H2. done.
Qed.

Lemma split_once_app (sep : ascii) (a b : string) :
  Str.mem sep a = false → split_once sep (a +:+ String sep b) = Some (a, b).
Proof.
  induction a as [|c a IH].
  - intros _. rewrite StrFacts.app_nil_l. simpl. by rewrite Ascii.eqb_refl.
  - rewrite StrFacts.app_cons. simpl.
    intros [Hc Ha]%orb_false_iff. rewrite Ascii.eqb_sym, Hc. by rewrite IH.
Qed.

(** ASCII pairs written as quoted [old|new] entries, with any text free
    of double quotes between and after them, are read back as they were
    written, in order. *)
Theorem parse_replacements_round_trip
    (l : list (string * (string * string))) (tail : string) :
  Forall
    (λ ge,
       Str.mem dquote ge.1 = false
       ∧ plain_pair ge.2
       ∧ ascii_text ge.2.1 = true ∧ ascii_text ge.2.2 = true) l →
  Str.mem dquote tail = false →
  _parse_replacements (entries l +:+ tail) = l.*2.
Proof.
  intros Hl Htail. unfold _parse_replacements.
  apply (Forall_impl _
           (λ ge, Str.mem dquote ge.1 = false ∧ plain_pair ge.2)) in Hl;
    [|by intros ? (? & ? & _)].
  induction Hl as [|[gap e] l [Hgap (H1 & H2 & Hbar & Hs1 & Hs2)] Hl IH].
  - cbn [entries]. rewrite StrFacts.app_nil_l.
    rewrite <- (StrFacts.app_nil_r tail).
    by rewrite (findall_quoted_gap tail "").
  - cbn [entries]. rewrite !StrFacts.app_assoc.
    rewrite findall_quoted_gap, findall_quoted_entry by done.
    unfold omap in *. cbn [list_omap]. rewrite split_once_app by done.
    cbn [fmap list_fmap snd] in *. rewrite Hs1, Hs2, IH. by destruct e.
Qed.

Lemma parse_replacements_round_trip_witness :
  _parse_replacements
    (entries [(" ", ("dev", "prod")); (newline, ("test", "final"))] +:+ " ")
  = [(" ", ("dev", "prod")); (newline, ("test", "final"))].*2.
Proof.
  apply (parse_replacements_round_trip
           [(" ", ("dev", "prod")); (newline, ("test", "final"))] " ").
  - repeat constructor.
  - reflexivity.
Defined.

(** What is found between quotes is not empty and has no quote. *)
Lemma findall_quoted_elem (run : option string) (s m : string) :
  (∀ r, run = Some r → Str.mem dquote r = false) →
  m ∈ findall_quoted run s →
  m ≠ "" ∧ Str.mem dquote m = false.
Proof.
  revert run. induction s as [|c s IH]; intros run Hrun.
  { by intros ?%elem_of_nil. }
  rewrite findall_quoted_cons. destruct (Ascii.eqb c dquote) eqn:Hc.
  - destruct run as [[|d r]|].
    + apply IH. by intros ? [= <-].
    + intros [-> | Hm]%elem_of_cons; [by split; [|apply Hrun] |].
      revert Hm. by apply IH.
    + apply IH. by intros ? [= <-].
  - destruct run as [r|]; apply IH; [|done].
    intros ? [= <-].
    by rewrite mem_app, mem_cons, (Hrun r eq_refl), Ascii.eqb_sym, Hc.
Qed.

Lemma split_once_spec (sep : ascii) (s a b : string) :
  split_once sep s = Some (a, b) →
  s = a +:+ String sep b ∧ Str.mem sep a = false.
Proof.
  revert a. induction s as [|c s IH]; intros a; [done |]. simpl.
  destruct (Ascii.eqb c sep) eqn:Hc.
  - intros [= <- <-]. apply Ascii.eqb_eq in Hc as ->. done.
  - destruct (split_once sep s) as [[a' b']|]; [|done].
    intros [= <- <-]. destruct (IH a' eq_refl) as [-> Ha].
    split; [done |]. rewrite mem_cons, Ascii.eqb_sym, Hc. done.
Qed.

Lemma lstrip_suffix (chars s : string) :
  ∃ pre, s = pre +:+ Str.lstrip chars s.
Proof.
  induction s as [|c s [pre IH]]; [by exists "" |]. simpl.
  destruct (Str.mem c chars); [|by exists ""].
  exists (String c pre). by rewrite StrFacts.app_cons, <- IH.
Qed.

Lemma lstrip_head (chars s : string) (c : ascii) (r : string) :
  Str.lstrip chars s = String c r → Str.mem c chars = false.
Proof.
  induction s as [|d s IH]; [done |]. simpl.
  destruct (Str.mem d chars) eqn:Hd; [done |]. by intros [= <- <-].
Qed.

Lemma lstrip_id (chars s : string) :
  (∀ c r, s = String c r → Str.mem c chars = false) →
  Str.lstrip chars s = s.
Proof.
  destruct s as [|c s]; [done |]. intros H. simpl.
  by rewrite (H c s eq_refl).
Qed.

(** [strip] has nothing left to remove from what it returns, and adds no
    character. *)
Lemma strip_idem (s : string) : Str.strip (Str.strip s) = Str.strip s.
Proof.
  unfold Str.strip. set (t := Str.lstrip Str.whitespace s).
  destruct (rstrip_spec Str.whitespace t) as (suffix & Ht & _ & Hlast).
  rewrite lstrip_id.
  - by apply rstrip_id.
  - intros c r Hr. rewrite Hr, StrFacts.app_cons in Ht.
    by apply (lstrip_head Str.whitespace s c (r +:+ suffix)).
Qed.

Lemma mem_strip (c : ascii) (s : string) :
  Str.mem c s = false → Str.mem c (Str.strip s) = false.
Proof.
  unfold Str.strip.
  destruct (lstrip_suffix Str.whitespace s) as [pre Hs].
  destruct (rstrip_spec Str.whitespace (Str.lstrip Str.whitespace s))
    as (suffix & Ht & _ & _).
  rewrite Hs, Ht at 1. rewrite !mem_app.
  by intros [_ [? _]%orb_false_iff]%orb_false_iff.
Qed.

(** Every pair that [_parse_replacements] returns is free of double
    quotes, has no bar in its first component, and has nothing for [strip]
    to remove. *)
Theorem parse_replacements_plain
    (replacements_str : string) (e : string * string) :
  e ∈ _parse_replacements replacements_str → plain_pair e.
Proof.
  unfold _parse_replacements. rewrite list_elem_of_omap.
  intros (m & Hm & He).
  apply findall_quoted_elem in Hm as [_ Hq]; [|done].
  destruct (split_once "|" m) as [[old new]|] eqn:Hsplit; [|done].
  injection He as <-. apply split_once_spec in Hsplit as [-> Hbar].
  rewrite mem_app, mem_cons in Hq.
  apply orb_false_iff in Hq as [Hold [_ Hnew]%orb_false_iff].
  unfold plain_pair. simpl. rewrite !strip_idem.
  repeat split; try done; by apply mem_strip.
Qed.

(** A quoted entry without a bar is dropped. *)
Example parse_replacements_drops_entries_without_bar :
  _parse_replacements
    (String dquote ("devprod" +:+ String dquote (" " +:+ entry ("a", "b"))))
  = [("a", "b")].
Proof. reflexivity. Qed.

Lemma parse_replacements_plain_witness : plain_pair ("test", "final").
Proof.
  apply (parse_replacements_plain
           (entries [(" ", ("dev", "prod")); (" ", ("test ", " final"))])).
  apply (bool_decide_unpack _). vm_compute. exact I.
Defined.

(** ** Whole passes *)

Lemma content_only_refl fs : content_only fs fs.
Proof. intros p. by left. Qed.

Lemma content_only_trans fs1 fs2 fs3 :
  content_only fs1 fs2 → content_only fs2 fs3 → content_only fs1 fs3.
Proof.
  intros H12 H23 p.
  destruct (H12 p) as [E12 | (f & t & Hf & Hf')],
    (H23 p) as [E23 | (g & u & Hg & Hg')].
  - left. congruence.
  - right. exists g, u. split; congruence.
  - right. exists f, t. split; congruence.
  - right. rewrite Hf' in Hg. injection Hg as <-. by exists f, u.
Qed.

Lemma rewritten_content_only cs old fs fs' :
  rewritten cs old fs fs' → content_only fs fs'.
Proof.
  intros H p. destruct (H p) as [? | (f & t & ? & _ & ?)]; [by left |].
  right. by exists f, t.
Qed.

Section Passes.

Variable self : config.
Variable file_magic : option (string → string).

(** One item of the fix pass, outside any [.git]. *)
Lemma fix_item_frame item old_str new_str dry_run acc fs :
  ".git" ∉ item →
  post
    (λ _ fs',
       content_only fs fs' ∧ ∀ p, ".git" ∈ p → fs' !! p = fs !! p)
    (λ _, False)
    (fix_item self file_magic item old_str new_str dry_run acc fs).
Proof.
  intros Hgit. destruct dry_run.
  { destruct (fix_item_dry self file_magic item old_str new_str acc fs)
      as (n & -> & _). simpl. split; [apply content_only_refl | done]. }
  pose proof (rewritten_fix_item self file_magic fs item old_str new_str acc
                fs (rewritten_refl _ _ _)) as Hshape.
  assert (post (λ _ fs', ∀ p, ".git" ∈ p → fs' !! p = fs !! p) (λ _, True)
            (fix_item self file_magic item old_str new_str false acc fs))
    as Hframe.
  { unfold fix_item. apply post_bind. simpl.
    destruct (is_dir fs item); apply post_bind.
    - pose proof (replace_content_in_directory_post self file_magic item
                    old_str new_str fs) as Hdir.
      destruct (replace_content_in_directory _ _ _ _ _ _) as [count fs'|];
        simpl in *; [|done].
      destruct Hdir as [(_ & _ & Hdir) _]. auto.
    - destruct (replace_content_in_file_cases self file_magic item
                  old_str new_str fs) as [H | (f & text & _ & _ & _ & _ & H)];
        rewrite H; simpl; [done |].
      intros p Hp. apply lookup_insert_ne. by intros ->. }
  destruct (fix_item _ _ _ _ _ _ _ _) as [n fs'|]; simpl in *; [|done].
  split; [by eapply rewritten_content_only | done].
Qed.

Lemma fix_pairs_post repo_dir pairs dry_run fs :
  post
    (λ n fs',
       0 ≤ n ∧ content_only fs fs' ∧ ∀ p, ".git" ∈ p → fs' !! p = fs !! p)
    (λ _, False)
    (fix_pairs self file_magic repo_dir pairs dry_run fs).
Proof.
  unfold fix_pairs.
  apply (post_for_each
    (λ n fs',
       0 ≤ n ∧ content_only fs fs' ∧ ∀ p, ".git" ∈ p → fs' !! p = fs !! p));
    [by split; [|split; [apply content_only_refl |]] |].
  intros [old_str new_str] n fs1 _ (Hn & Hshape & Hgit).
  apply post_bind. simpl. unfold fix_items.
  apply (post_for_each
    (λ m fs',
       0 ≤ m ∧ content_only fs fs' ∧ ∀ p, ".git" ∈ p → fs' !! p = fs !! p));
    [done |].
  intros item m fs2 (_ & _ & Hitem & _)%elem_of_find_items_with_pattern
    (Hm & Hshape2 & Hgit2).
  pose proof (fix_item_frame item old_str new_str dry_run m fs2 Hitem) as H.
  pose proof (fix_item_count self file_magic item old_str new_str dry_run m
                fs2) as Hcount.
  destruct (fix_item _ _ _ _ _ _ _ _) as [m' fs3|]; simpl in *; [|done].
  destruct H as [Hs3 Hg3]. split; [lia |]. split.
  - by eapply content_only_trans.
  - intros p Hp. rewrite Hg3 by done. by apply Hgit2.
Qed.

Lemma create_renamed_copy_grows item old_str new_str dry_run fs p :
  is_Some (fs !! p) →
  is_Some
    (final (create_renamed_copy self file_magic item old_str new_str
              dry_run fs) !! p).
Proof.
  intros Hp.
  pose proof (create_renamed_copy_cases self file_magic item old_str new_str
                dry_run fs) as H.
  simpl in H. destruct (new_name_of _ _ _ _); [|by rewrite H].
  destruct (decide _); [by rewrite H |].
  destruct (path_exists _ _); [by rewrite H |].
  destruct dry_run; [by rewrite H |].
  destruct (create_renamed_copy _ _ _ _ _ _ _); simpl in *.
  - destruct H as [_ [Hgrow _]]. auto.
  - destruct H as [Hgrow _]. auto.
Qed.

Lemma copy_pairs_grows repo_dir pairs dry_run fs :
  post (λ _ fs', ∀ p, is_Some (fs !! p) → is_Some (fs' !! p))
    (λ fs', ∀ p, is_Some (fs !! p) → is_Some (fs' !! p))
    (copy_pairs self file_magic repo_dir pairs dry_run fs).
Proof.
  unfold copy_pairs. apply post_for_each; [done |].
  intros [old_str new_str] n fs1 _ H1. apply post_bind. simpl.
  unfold copy_items. apply post_for_each; [done |].
  intros item m fs2 _ H2. apply post_bind.
  pose proof (create_renamed_copy_grows item old_str new_str dry_run fs2)
    as H.
  destruct (create_renamed_copy _ _ _ _ _ _ _); simpl in *; auto.
Qed.

End Passes.

(** A whole fix pass, over all the replacement pairs, in dry run or not:
    it returns, its count is not negative, the file system keeps its
    entries, its directories and the permissions of its files (only texts
    may differ), and no entry with a [.git] part is changed. *)
Theorem fix_pairs_frame
    (self : config) (file_magic : option (string → string))
    (repo_dir : list string) (pairs : list (string * string))
    (dry_run : bool) (fs : fsys) :
  ∃ n fs',
    fix_pairs self file_magic repo_dir pairs dry_run fs = Ok n fs'
    ∧ 0 ≤ n
    ∧ content_only fs fs'
    ∧ ∀ p, ".git" ∈ p → fs' !! p = fs !! p.
Proof.
  pose proof (fix_pairs_post self file_magic repo_dir pairs dry_run fs) as H.
  destruct (fix_pairs _ _ _ _ _ _) as [n fs'|]; simpl in H; [|done].
  by exists n, fs'.
Qed.

(** A whole copy pass, over all the replacement pairs, however it ends
    (returned or raised): every entry that existed is still there. *)
Theorem copy_pairs_never_deletes
    (self : config) (file_magic : option (string → string))
    (repo_dir : list string) (pairs : list (string * string))
    (dry_run : bool) (fs : fsys) (p : list string) :
  is_Some (fs !! p) →
  is_Some (final (copy_pairs self file_magic repo_dir pairs dry_run fs) !! p).
Proof.
  intros Hp.
  pose proof (copy_pairs_grows self file_magic repo_dir pairs dry_run fs) as H.
  destruct (copy_pairs _ _ _ _ _ _); simpl in *; auto.
Qed.

Lemma copy_pairs_never_deletes_witness :
  is_Some
    (final (copy_pairs (Sample.cfg true) Sample.magic ["repo"]
              [("dev", "prod")] false Sample.tree)
       !! ["repo"; "dev"; "readme.md"]).
Proof.
  apply (copy_pairs_never_deletes (Sample.cfg true) Sample.magic ["repo"]
           [("dev", "prod")] false Sample.tree ["repo"; "dev"; "readme.md"]).
  eexists. reflexivity.
Defined.

(** ** The commands of a push *)

Lemma push_attempts_spec
    (sh : Git.shell) (repo_dir : list string) (branch : string)
    (log : list Git.call) :
  let push : Git.call := (repo_dir, ["git"; "push"; "origin"; branch]) in
  ∃ k,
    (k < 3)%nat
    ∧ (∀ j, (j < k)%nat →
         Git.returncode (sh (log ++ replicate j push) push) ≠ 0)
    ∧ Git.push_attempts sh (seq 0 max_retries) repo_dir branch log
      = Git.Returned
          (bool_decide
             (Git.returncode (sh (log ++ replicate k push) push) = 0))
          (log ++ replicate (S k) push).
Proof.
  intros push.
  assert (∀ l,
            Git.run_command sh ["git"; "push"; "origin"; branch] repo_dir
              true l
            = if decide (Git.returncode (sh l push) = 0)
              then Git.Returned (sh l push) (l ++ [push])
              else Git.CalledProcessError (l ++ [push])) as Hrun.
  { intros l. unfold Git.run_command. fold push. simpl.
    destruct (decide _) as [-> | Hne]; [done |].
    by apply Z.eqb_neq in Hne as ->. }
  assert (∀ j, (j < 1)%nat →
            Git.returncode (sh (log ++ replicate j push) push) ≠ 0
          ↔ Git.returncode (sh (log ++ []) push) ≠ 0) as H1.
  { intros j Hj. by replace j with 0%nat by lia. }
  simpl. unfold Git.except_CalledProcessError, Git.and_then.
  rewrite Hrun.
  destruct (decide _) as [E0 | N0].
  { exists 0%nat. simpl. rewrite app_nil_r, bool_decide_eq_true_2 by done.
    split; [lia |]. split; [intros; lia | done]. }
  simpl. rewrite Hrun.
  destruct (decide _) as [E1 | N1].
  { exists 1%nat. simpl.
    rewrite bool_decide_eq_true_2 by done.
    split; [lia |]. split; [|by rewrite <- app_assoc].
    intros j Hj. replace j with 0%nat by lia. simpl. by rewrite app_nil_r. }
  simpl. rewrite Hrun. rewrite <- !app_assoc in *. simpl in *.
  exists 2%nat. simpl. split; [lia |]. split.
  - intros j Hj. destruct j as [|[|j]]; simpl; [by rewrite app_nil_r | done | lia].
  - destruct (decide _) as [E2 | N2].
    + by rewrite bool_decide_eq_true_2.
    + by rewrite bool_decide_eq_false_2.
Qed.


(** Two pushes fail and the third goes through. *)
Example git_add_commit_push_third_push :
  Git.git_add_commit_push
    (λ log c,
       if decide (c.2 = ["git"; "push"; "origin"; "main"])
       then Git.mkCompleted (if (length log <? 6)%nat then 1 else 0) ""
       else Git.mkCompleted 0 " main ")
    ["repo"] "message" "repo" []
  = Git.Returned true
      [(["repo"], ["git"; "status"; "--porcelain"]);
       (["repo"], ["git"; "add"; "-A"]);
       (["repo"], ["git"; "commit"; "-m"; "message"]);
       (["repo"], ["git"; "branch"; "--show-current"]);
       (["repo"], ["git"; "push"; "origin"; "main"]);
       (["repo"], ["git"; "push"; "origin"; "main"]);
       (["repo"], ["git"; "push"; "origin"; "main"])].
Proof. vm_compute. reflexivity. Qed.
